(** * The Spin key/value SDK for Go (sdk/go/kv/kv.go)

    A shallow embedding of the package [kv]: the [Store] handle and its
    lifecycle, the wire codec that turns Go strings and byte slices into
    the ABI's pointer/length descriptors, and the decoder that turns the
    host's tagged unions into Go values and [*Error]s.

    Go values are modelled by value: a [string] is a Rocq [string] (a
    sequence of 8-bit characters), a [[]byte] is a [list byte] (the nil
    slice and the empty slice are both [[]]), an [error] is an
    [option Error] ([None] is nil).  A run-time panic is an explicit
    outcome.  The receiver [*Store], the linear memory shared with the
    host, and the list of host calls issued so far are threaded through a
    small state monad. *)

From Stdlib Require Import ZArith List Bool Lia.
From Stdlib.Strings Require Import String Ascii Byte.
From Stdlib Require Import DecimalString.
Import ListNotations.
Local Open Scope string_scope.
Local Open Scope list_scope.
Local Open Scope Z_scope.

(** ** Linear memory *)

Module Memory.

(** The component's linear memory, byte addressed.  Both the C heap
    ([C.CString]) and the buffers the host hands back live in it. *)
Definition Mem : Type := Z -> byte.

Definition zeroed : Mem := fun _ => x00.

Definition store_byte (m : Mem) (p : Z) (b : byte) : Mem :=
  fun a => if a =? p then b else m a.

Fixpoint store_bytes (m : Mem) (p : Z) (bs : list byte) : Mem :=
  match bs with
  | [] => m
  | b :: bs' => store_bytes (store_byte m p b) (p + 1) bs'
  end.

Fixpoint load_bytes (m : Mem) (p : Z) (n : nat) : list byte :=
  match n with
  | O => []
  | S n' => m p :: load_bytes m (p + 1) n'
  end.

End Memory.
Import Memory.

(** ** The C side, as cgo shows it *)

Module C.

(** [C.int(x)]: conversion to a signed 32-bit integer wraps around. *)
Definition int (x : Z) : Z := (x + 2 ^ 31) mod 2 ^ 32 - 2 ^ 31.

(** [C.size_t(len(x))]: a Go length is a non-negative [int], and
    [size_t] is the unsigned type of the same width, so the conversion
    keeps the value. *)
Definition size_t (n : nat) : Z := Z.of_nat n.

(** [C.uint32_t(s.ptr)]: [key_value_store_t] is [uint32_t] already, so
    the conversion is the identity. *)
Definition uint32_t (h : Z) : Z := h.

(** Modelled from the spec: the declarations of key-value.h, which is
    included by kv.go but is not part of the sources.  Section 6 gives
    their shape: a descriptor is a pointer and a length, an error union
    is a tag and a payload that is a string descriptor for the IO kind,
    and every result is a tagged union selected by [is_err]. *)
Record key_value_string_t : Type :=
  { str_ptr : Z; str_len : Z }.

Record key_value_list_u8_t : Type :=
  { list_ptr : Z; list_len : Z }.

Definition key_value_store_t : Type := Z.

Record key_value_error_t : Type :=
  { tag : Z; val : key_value_string_t }.

(** [key_value_expected_*_error_t]: the code tests [is_err] and then
    reads [val] as the error or as the success payload; a match on the
    constructor does both at once. *)
Inductive expected (T : Type) : Type :=
| ok (v : T)
| err (e : key_value_error_t).
Arguments ok {T} v.
Arguments err {T} e.

Definition is_err {T : Type} (r : expected T) : bool :=
  match r with ok _ => false | err _ => true end.

End C.

(** ** Outcomes of Go code *)

Inductive Outcome (A : Type) : Type :=
| Ret (a : A)
| Panic (msg : string).
Arguments Ret {A} a.
Arguments Panic {A} msg.

Definition outcome_map {A B : Type} (f : A -> B) (o : Outcome A) : Outcome B :=
  match o with
  | Ret a => Ret (f a)
  | Panic msg => Panic msg
  end.

(** [C.GoStringN(p, n)] and [C.GoBytes(p, n)] copy [n] bytes out of
    linear memory; a negative length is a run-time fault. *)
Definition GoBytes (m : Mem) (p : Z) (n : Z) : Outcome (list byte) :=
  if n <? 0 then Panic "runtime error: negative length"
  else Ret (load_bytes m p (Z.to_nat n)).

Definition GoStringN (m : Mem) (p : Z) (n : Z) : Outcome string :=
  outcome_map string_of_list_byte (GoBytes m p n).

(** [fmt.Sprintf("%v", n)] on an integer: its decimal digits. *)
Definition fmt_v (n : Z) : string := NilZero.string_of_int (Z.to_int n).

(** ** Errors *)

(** const ( ErrorStoreTableFull = iota ... ErrorIO ) *)
Definition ErrorStoreTableFull : Z := 0.
Definition ErrorNoSuchStore : Z := 1.
Definition ErrorAccessDenied : Z := 2.
Definition ErrorInvalidStore : Z := 3.
Definition ErrorNoSuchKey : Z := 4.
Definition ErrorIO : Z := 5.

Record Error : Type := { Code : Z; Message : string }.

Definition Error_Error (e : Error) : string := Message e.

Definition newError (code : Z) (message : string) : Error :=
  {| Code := code; Message := message |}.

(** func toErr(err *C.key_value_error_t) error.  Only the [ErrorIO] arm
    looks at the payload, and so only that arm reads memory. *)
Definition toErr (m : Mem) (e : C.key_value_error_t) : Outcome Error :=
  let t := C.tag e in
  if t =? ErrorStoreTableFull then
    Ret (newError ErrorStoreTableFull "store table full")
  else if t =? ErrorNoSuchStore then
    Ret (newError ErrorNoSuchStore "no such store")
  else if t =? ErrorAccessDenied then
    Ret (newError ErrorAccessDenied "access denied")
  else if t =? ErrorInvalidStore then
    Ret (newError ErrorInvalidStore "invalid store")
  else if t =? ErrorNoSuchKey then
    Ret (newError ErrorNoSuchKey "no such key")
  else if t =? ErrorIO then
    let str := C.val e in
    outcome_map (fun s => newError ErrorIO ("io error: " ++ s)%string)
                (GoStringN m (C.str_ptr str) (C.int (C.str_len str)))
  else
    Ret (newError t ("unrecognized error: " ++ fmt_v t)%string).

(** ** The host and the machine state *)

(** What a host call can touch: linear memory, the C allocator's break
    (the host allocates the buffers it returns with the component's own
    allocator), and the host's private state [H]. *)
Record World (H : Type) : Type :=
  { mem : Mem; brk : Z; host : H }.
Arguments mem {H} w.
Arguments brk {H} w.
Arguments host {H} w.

(** The imported functions of key-value.h.  Their bodies belong to the
    host, so they are parameters of the development; out-parameters
    ([&ret]) are returned. *)
Record Imports (H : Type) : Type :=
  { key_value_open :
      C.key_value_string_t -> World H -> C.expected C.key_value_store_t * World H;
    key_value_close :
      Z -> World H -> World H;
    key_value_get :
      Z -> C.key_value_string_t -> World H ->
      C.expected C.key_value_list_u8_t * World H;
    key_value_delete :
      Z -> C.key_value_string_t -> World H -> C.expected unit * World H;
    key_value_set :
      Z -> C.key_value_string_t -> C.key_value_list_u8_t -> World H ->
      C.expected unit * World H;
    key_value_exists :
      Z -> C.key_value_string_t -> World H -> C.expected bool * World H }.
Arguments key_value_open {H} i.
Arguments key_value_close {H} i.
Arguments key_value_get {H} i.
Arguments key_value_delete {H} i.
Arguments key_value_set {H} i.
Arguments key_value_exists {H} i.

(** One entry per host call issued, with the arguments it was given. *)
Inductive Call : Type :=
| CallOpen (name : C.key_value_string_t)
| CallClose (store : Z)
| CallGet (store : Z) (key : C.key_value_string_t)
| CallDelete (store : Z) (key : C.key_value_string_t)
| CallSet (store : Z) (key : C.key_value_string_t) (value : C.key_value_list_u8_t)
| CallExists (store : Z) (key : C.key_value_string_t).

(** type Store struct { name string; active bool; ptr C.key_value_store_t } *)
Record Store : Type :=
  { name : string; active : bool; ptr : C.key_value_store_t }.

(** func NewStore(name string) *Store: the other fields are zero. *)
Definition NewStore (name : string) : Store :=
  {| name := name; active := false; ptr := 0 |}.

(** The receiver [*s], the world, and the host calls made so far. *)
Record State (H : Type) : Type :=
  { self : Store; world : World H; calls : list Call }.
Arguments self {H} s.
Arguments world {H} s.
Arguments calls {H} s.

Definition Go (H A : Type) : Type := State H -> Outcome A * State H.

Definition ret {H A : Type} (a : A) : Go H A := fun st => (Ret a, st).

Definition bind {H A B : Type} (c : Go H A) (k : A -> Go H B) : Go H B :=
  fun st =>
    match c st with
    | (Ret a, st') => k a st'
    | (Panic msg, st') => (Panic msg, st')
    end.

Definition panic {H A : Type} (msg : string) : Go H A :=
  fun st => (Panic msg, st).

Declare Scope go_scope.
Delimit Scope go_scope with go.
Notation "x <- c ;; k" := (bind c (fun x => k))
  (at level 61, c at next level, right associativity) : go_scope.
Notation "c ;; k" := (bind c (fun _ => k))
  (at level 61, right associativity) : go_scope.
Local Open Scope go_scope.

Section Machine.

Context {H : Type}.

Definition get_self : Go H Store := fun st => (Ret (self st), st).

Definition set_ptr (h : C.key_value_store_t) : Go H unit :=
  fun st =>
    (Ret tt,
     {| self := {| name := name (self st); active := active (self st); ptr := h |};
        world := world st; calls := calls st |}).

Definition set_active (b : bool) : Go H unit :=
  fun st =>
    (Ret tt,
     {| self := {| name := name (self st); active := b; ptr := ptr (self st) |};
        world := world st; calls := calls st |}).

(** Running a pure computation that may panic. *)
Definition lift {A : Type} (o : Mem -> Outcome A) : Go H A :=
  fun st => (o (mem (world st)), st).

(** Placing [bs] in fresh linear memory; the address is returned. *)
Definition alloc (bs : list byte) : Go H Z :=
  fun st =>
    let w := world st in
    (Ret (brk w),
     {| self := self st;
        world := {| mem := store_bytes (mem w) (brk w) bs;
                    brk := brk w + Z.of_nat (List.length bs);
                    host := host w |};
        calls := calls st |}).

(** Issuing a host call: the world changes as the host decides and the
    call is appended to the log. *)
Definition host_call {A : Type} (c : Call) (f : World H -> A * World H) : Go H A :=
  fun st =>
    let (r, w') := f (world st) in
    (Ret r, {| self := self st; world := w'; calls := calls st ++ [c] |}).

(** [C.CString(x)]: a malloc'ed, NUL-terminated copy of [x]. *)
Definition CString (x : string) : Go H Z :=
  alloc (list_byte_of_string x ++ [x00]).

(** [&x[0]] on a non-empty slice.  Go slices are modelled by value,
    so taking the address of the backing array is where its bytes are
    placed in linear memory. *)
Definition addr_of_first (x : list byte) : Go H Z := alloc x.

(** func toCStr(x string) C.key_value_string_t *)
Definition toCStr (x : string) : Go H C.key_value_string_t :=
  p <- CString x;;
  ret {| C.str_ptr := p; C.str_len := C.size_t (String.length x) |}.

(** func toCBytes(x []byte) C.key_value_list_u8_t.  The index
    expression [x[0]] is bounds-checked before its address is taken. *)
Definition toCBytes (x : list byte) : Go H C.key_value_list_u8_t :=
  match x with
  | [] => panic "runtime error: index out of range [0] with length 0"
  | _ :: _ =>
      p <- addr_of_first x;;
      ret {| C.list_ptr := p; C.list_len := C.size_t (List.length x) |}
  end.

Variable abi : Imports H.

(** func (s *Store) open() error *)
Definition open : Go H (option Error) :=
  s <- get_self;;
  if active s then ret None
  else
    cname <- toCStr (name s);;
    r <- host_call (CallOpen cname) (key_value_open abi cname);;
    match r with
    | C.err e => e' <- lift (fun m => toErr m e);; ret (Some e')
    | C.ok h => set_ptr h;; set_active true;; ret None
    end.

(** func (s *Store) Open() error *)
Definition Open : Go H (option Error) := open.

(** func (s *Store) Close() *)
Definition Close : Go H unit :=
  s <- get_self;;
  (if active s
   then host_call (CallClose (C.uint32_t (ptr s)))
                  (fun w => (tt, key_value_close abi (C.uint32_t (ptr s)) w))
   else ret tt);;
  set_active false.

(** func (s *Store) Get(key string) ([]byte, error) *)
Definition Get (key : string) : Go H (list byte * option Error) :=
  ckey <- toCStr key;;
  s <- get_self;;
  r <- host_call (CallGet (C.uint32_t (ptr s)) ckey)
                 (key_value_get abi (C.uint32_t (ptr s)) ckey);;
  match r with
  | C.err e => e' <- lift (fun m => toErr m e);; ret ([], Some e')
  | C.ok list =>
      b <- lift (fun m => GoBytes m (C.list_ptr list) (C.int (C.list_len list)));;
      ret (b, None)
  end.

(** func (s *Store) Delete(key string) error *)
Definition Delete (key : string) : Go H (option Error) :=
  ckey <- toCStr key;;
  s <- get_self;;
  r <- host_call (CallDelete (C.uint32_t (ptr s)) ckey)
                 (key_value_delete abi (C.uint32_t (ptr s)) ckey);;
  match r with
  | C.err e => e' <- lift (fun m => toErr m e);; ret (Some e')
  | C.ok _ => ret None
  end.

(** func (s *Store) Set(key string, value []byte) error *)
Definition Set_ (key : string) (value : list byte) : Go H (option Error) :=
  ckey <- toCStr key;;
  cbytes <- toCBytes value;;
  s <- get_self;;
  r <- host_call (CallSet (C.uint32_t (ptr s)) ckey cbytes)
                 (key_value_set abi (C.uint32_t (ptr s)) ckey cbytes);;
  match r with
  | C.err e => e' <- lift (fun m => toErr m e);; ret (Some e')
  | C.ok _ => ret None
  end.

(** func (s *Store) Exists(key string) (bool, error) *)
Definition Exists (key : string) : Go H (bool * option Error) :=
  ckey <- toCStr key;;
  s <- get_self;;
  r <- host_call (CallExists (C.uint32_t (ptr s)) ckey)
                 (key_value_exists abi (C.uint32_t (ptr s)) ckey);;
  match r with
  | C.err e => e' <- lift (fun m => toErr m e);; ret (false, Some e')
  | C.ok b => ret (b, None)
  end.

End Machine.

(** ** What a descriptor describes *)

(** The descriptor [d] points at the bytes of [s] and carries its length. *)
Definition string_at (m : Mem) (d : C.key_value_string_t) (s : string) : Prop :=
  C.str_len d = Z.of_nat (String.length s) /\
  load_bytes m (C.str_ptr d) (String.length s) = list_byte_of_string s.

Definition bytes_at (m : Mem) (d : C.key_value_list_u8_t) (v : list byte) : Prop :=
  C.list_len d = Z.of_nat (List.length v) /\
  load_bytes m (C.list_ptr d) (List.length v) = v.

(** The largest length a Go string or slice has on the 32-bit target,
    which is also the largest [C.int]. *)
Definition MaxInt32 : Z := 2 ^ 31 - 1.

(** ** A reference host

    A small host used to run the SDK on concrete inputs: one store,
    named "default", whose handles are issued in sequence.  A call on a
    handle that is not open fails with [ErrorInvalidStore]; an empty key
    is refused with an [ErrorIO] that carries a message. *)

Module RefHost.

Record T : Type :=
  { next_handle : Z; opened : list Z; table : list (string * list byte) }.

Definition init : T := {| next_handle := 0; opened := []; table := [] |}.

Definition read_string (m : Mem) (d : C.key_value_string_t) : string :=
  string_of_list_byte (load_bytes m (C.str_ptr d) (Z.to_nat (C.str_len d))).

Definition read_bytes (m : Mem) (d : C.key_value_list_u8_t) : list byte :=
  load_bytes m (C.list_ptr d) (Z.to_nat (C.list_len d)).

Definition is_opened (h : Z) (t : T) : bool := existsb (Z.eqb h) (opened t).

Fixpoint lookup (k : string) (l : list (string * list byte)) : option (list byte) :=
  match l with
  | [] => None
  | (k', v) :: l' => if String.eqb k k' then Some v else lookup k l'
  end.

Fixpoint remove (k : string) (l : list (string * list byte)) : list (string * list byte) :=
  match l with
  | [] => []
  | (k', v) :: l' => if String.eqb k k' then remove k l' else (k', v) :: remove k l'
  end.

Definition with_table (t : T) (l : list (string * list byte)) : T :=
  {| next_handle := next_handle t; opened := opened t; table := l |}.

Definition with_host (w : World T) (t : T) : World T :=
  {| mem := mem w; brk := brk w; host := t |}.

(** An error without payload. *)
Definition fail {A : Type} (tag : Z) (w : World T) : C.expected A * World T :=
  (C.err {| C.tag := tag; C.val := {| C.str_ptr := 0; C.str_len := 0 |} |}, w).

(** An IO error: the message is written into a fresh buffer. *)
Definition fail_io {A : Type} (msg : string) (w : World T) : C.expected A * World T :=
  (C.err {| C.tag := ErrorIO;
            C.val := {| C.str_ptr := brk w;
                        C.str_len := Z.of_nat (String.length msg) |} |},
   {| mem := store_bytes (mem w) (brk w) (list_byte_of_string msg);
      brk := brk w + Z.of_nat (String.length msg);
      host := host w |}).

(** The checks every data call starts with. *)
Definition guarded {A : Type} (h : Z) (key : string) (w : World T)
           (k : unit -> C.expected A * World T) : C.expected A * World T :=
  if negb (is_opened h (host w)) then fail ErrorInvalidStore w
  else if String.eqb key "" then fail_io "empty key" w
  else k tt.

Definition host_open (d : C.key_value_string_t) (w : World T)
  : C.expected C.key_value_store_t * World T :=
  if String.eqb (read_string (mem w) d) "default" then
    let t := host w in
    (C.ok (next_handle t),
     with_host w {| next_handle := next_handle t + 1;
                    opened := next_handle t :: opened t;
                    table := table t |})
  else fail ErrorNoSuchStore w.

Definition host_close (h : Z) (w : World T) : World T :=
  let t := host w in
  with_host w {| next_handle := next_handle t;
                 opened := filter (fun h' => negb (Z.eqb h h')) (opened t);
                 table := table t |}.

Definition host_get (h : Z) (d : C.key_value_string_t) (w : World T)
  : C.expected C.key_value_list_u8_t * World T :=
  let key := read_string (mem w) d in
  guarded h key w (fun _ =>
    match lookup key (table (host w)) with
    | None => fail ErrorNoSuchKey w
    | Some v =>
        (C.ok {| C.list_ptr := brk w; C.list_len := Z.of_nat (List.length v) |},
         {| mem := store_bytes (mem w) (brk w) v;
            brk := brk w + Z.of_nat (List.length v);
            host := host w |})
    end).

Definition host_delete (h : Z) (d : C.key_value_string_t) (w : World T)
  : C.expected unit * World T :=
  let key := read_string (mem w) d in
  guarded h key w (fun _ =>
    (C.ok tt, with_host w (with_table (host w) (remove key (table (host w)))))).

Definition host_set (h : Z) (d : C.key_value_string_t) (v : C.key_value_list_u8_t)
           (w : World T) : C.expected unit * World T :=
  let key := read_string (mem w) d in
  guarded h key w (fun _ =>
    (C.ok tt,
     with_host w (with_table (host w)
                    ((key, read_bytes (mem w) v) :: remove key (table (host w)))))).

Definition host_exists (h : Z) (d : C.key_value_string_t) (w : World T)
  : C.expected bool * World T :=
  let key := read_string (mem w) d in
  guarded h key w (fun _ =>
    (C.ok (match lookup key (table (host w)) with Some _ => true | None => false end),
     w)).

Definition imports : Imports T :=
  {| key_value_open := host_open;
     key_value_close := host_close;
     key_value_get := host_get;
     key_value_delete := host_delete;
     key_value_set := host_set;
     key_value_exists := host_exists |}.

(** A component that has just been started and holds the store [s]. *)
Definition boot (s : Store) : State T :=
  {| self := s;
     world := {| mem := zeroed; brk := 1024; host := init |};
     calls := [] |}.

(** The contents of the store behind handle [h], if it is open. *)
Definition view (t : T) (h : Z) : option (string -> option (list byte)) :=
  if is_opened h t then Some (fun k => lookup k (table t)) else None.

End RefHost.

(** ** What a correct host store promises

    [view t h] is the content of the store behind handle [h] in the host
    state [t], or [None] when [h] is not an open handle.  A correct host
    accepts a [set] on an open handle and a non-empty key, and a later
    [get] of a key hands back the bytes held for it. *)

Section HostContract.

Context {H : Type}.
Variable abi : Imports H.
Variable view : H -> Z -> option (string -> option (list byte)).

Record CorrectHost : Prop :=
  { set_stores :
      forall w h dk dv k v f,
        view (host w) h = Some f ->
        k <> "" ->
        string_at (mem w) dk k ->
        bytes_at (mem w) dv v ->
        exists w' f',
          key_value_set abi h dk dv w = (C.ok tt, w') /\
          view (host w') h = Some f' /\
          f' k = Some v;
    get_returns :
      forall w h dk k v f,
        view (host w) h = Some f ->
        k <> "" ->
        f k = Some v ->
        string_at (mem w) dk k ->
        exists d w',
          key_value_get abi h dk w = (C.ok d, w') /\
          bytes_at (mem w') d v }.

End HostContract.

(** ** The claims, as the specification words them *)

(** "Store lazily opens the connection if not active": run from a state
    whose Store is not active, the operation's first host call is the
    open call. *)
Definition opens_lazily {H A : Type} (op : Go H A) (st : State H) : Prop :=
  active (self st) = false ->
  exists cname rest, calls (snd (op st)) = calls st ++ CallOpen cname :: rest.

(** "The decoder must never fail to produce some typed Error for any
    tag value": decoding the error union [e] in memory [m] returns an
    [Error]. *)
Definition decodes (m : Mem) (e : C.key_value_error_t) : Prop :=
  exists err, toErr m e = Ret err.

(** The frame of an operation: the receiver is left as it was. *)
Definition keeps_self {H A : Type} (c : Go H A) : Prop :=
  forall st, self (snd (c st)) = self st.

(** ** Lists of strings *)

(** Modelled from the spec: [key_value_list_string_t] of key-value.h, an
    array of string descriptors given by the address of its first
    element and its number of elements. *)
Record key_value_list_string_t : Type :=
  { strs_ptr : Z; strs_len : Z }.

(** How a [key_value_string_t] lies in linear memory is fixed by the C
    ABI of the target, not by kv.go: its size and the way it is read are
    parameters of [fromCStrList]. *)
Record Layout : Type :=
  { sizeof_string : Z;
    load_string : Mem -> Z -> C.key_value_string_t }.

(** The layout on wasm32: two little-endian 32-bit words, the pointer
    and then the length. *)
Definition load_u32 (m : Mem) (p : Z) : Z :=
  Z.of_N (Byte.to_N (m p))
  + 2 ^ 8 * Z.of_N (Byte.to_N (m (p + 1)))
  + 2 ^ 16 * Z.of_N (Byte.to_N (m (p + 2)))
  + 2 ^ 24 * Z.of_N (Byte.to_N (m (p + 3))).

Definition wasm32 : Layout :=
  {| sizeof_string := 8;
     load_string := fun m p =>
       {| C.str_ptr := load_u32 m p; C.str_len := load_u32 m (p + 4) |} |}.

(** [int(list.len)]: Go's [int] has 32 bits on the target, so the
    conversion from [size_t] wraps around like [C.int]. *)
Definition Go_int (x : Z) : Z := (x + 2 ^ 31) mod 2 ^ 32 - 2 ^ 31.

(** [unsafe.Slice(ptr, len)] panics on a negative length and on a nil
    pointer with a non-zero length. *)
Definition unsafe_Slice (p : Z) (len : Z) : Outcome unit :=
  if len <? 0 then Panic "runtime error: unsafe.Slice: len out of range"
  else if (p =? 0) && negb (len =? 0)
       then Panic "runtime error: unsafe.Slice: ptr is nil and len is not zero"
       else Ret tt.

(** The loop of [fromCStrList]: [n] iterations are left, [i] is the
    loop index and [result] what has been appended so far. *)
Fixpoint fromCStrList_loop (L : Layout) (m : Mem) (base : Z) (i : Z) (n : nat)
         (result : list string) : Outcome (list string) :=
  match n with
  | O => Ret result
  | S n' =>
      let str := load_string L m (base + i * sizeof_string L) in
      match GoStringN m (C.str_ptr str) (C.int (C.str_len str)) with
      | Ret s => fromCStrList_loop L m base (i + 1) n' (result ++ [s])
      | Panic msg => Panic msg
      end
  end.

(** func fromCStrList(list *C.key_value_list_string_t) []string *)
Definition fromCStrList (L : Layout) (m : Mem) (lst : key_value_list_string_t)
  : Outcome (list string) :=
  let listLen := Go_int (strs_len lst) in
  match unsafe_Slice (strs_ptr lst) listLen with
  | Panic msg => Panic msg
  | Ret _ => fromCStrList_loop L m (strs_ptr lst) 0 (Z.to_nat listLen) []
  end.

(** The array [lst] holds, in this order, descriptors of the strings
    [ss]. *)
Definition strings_at (L : Layout) (m : Mem) (lst : key_value_list_string_t)
           (ss : list string) : Prop :=
  strs_len lst = Z.of_nat (List.length ss) /\
  forall i s,
    nth_error ss i = Some s ->
    string_at m (load_string L m (strs_ptr lst + Z.of_nat i * sizeof_string L)) s.

(** ** Sequences of calls on one Store *)

(** What a caller can do with a Store it holds. *)
Inductive Op : Type :=
| OpOpen
| OpClose
| OpGet (key : string)
| OpSet (key : string) (value : list byte)
| OpDelete (key : string)
| OpExists (key : string).

Definition is_OpOpen (o : Op) : bool :=
  match o with OpOpen => true | _ => false end.

Section Caller.

Context {H : Type}.
Variable abi : Imports H.

(** One call, its results dropped. *)
Definition step (o : Op) : Go H unit :=
  match o with
  | OpOpen => _ <- Open abi;; ret tt
  | OpClose => Close abi
  | OpGet key => _ <- Get abi key;; ret tt
  | OpSet key value => _ <- Set_ abi key value;; ret tt
  | OpDelete key => _ <- Delete abi key;; ret tt
  | OpExists key => _ <- Exists abi key;; ret tt
  end.

(** The calls one after the other; a panic ends the run. *)
Fixpoint run (ops : list Op) : Go H unit :=
  match ops with
  | [] => ret tt
  | o :: ops' => step o;; run ops'
  end.

End Caller.

(** ** What a correct host store promises about deletion

    After a [delete] on an open handle the key is absent; [exists]
    answers whether the key is present and leaves the store alone; a
    [get] of an absent key fails with the NoSuchKey tag. *)

Section HostContractDelete.

Context {H : Type}.
Variable abi : Imports H.
Variable view : H -> Z -> option (string -> option (list byte)).

Record CorrectHostDelete : Prop :=
  { delete_removes :
      forall w h dk k f,
        view (host w) h = Some f ->
        k <> "" ->
        string_at (mem w) dk k ->
        exists w' f',
          key_value_delete abi h dk w = (C.ok tt, w') /\
          view (host w') h = Some f' /\
          f' k = None;
    exists_reflects :
      forall w h dk k f,
        view (host w) h = Some f ->
        k <> "" ->
        string_at (mem w) dk k ->
        exists w',
          key_value_exists abi h dk w
          = (C.ok (match f k with Some _ => true | None => false end), w') /\
          host w' = host w;
    get_missing :
      forall w h dk k f,
        view (host w) h = Some f ->
        k <> "" ->
        f k = None ->
        string_at (mem w) dk k ->
        exists v w',
          key_value_get abi h dk w
          = (C.err {| C.tag := ErrorNoSuchKey; C.val := v |}, w') }.

End HostContractDelete.

(** ** Runs on the reference host *)

Module Sample.

(** States of a component on the reference host: just started with a
    Store whose name the host does not know, just started with the
    Store "default", after a successful Open, and after a value has
    been stored. *)
Definition unknown : State RefHost.T := RefHost.boot (NewStore "cache").

Definition fresh : State RefHost.T := RefHost.boot (NewStore "default").

Definition opened : State RefHost.T := snd (Open RefHost.imports fresh).

Definition stored : State RefHost.T :=
  snd (Set_ RefHost.imports "k" [x61%byte] opened).

(** A memory that holds the strings "ab" and "c" and, at address 64, an
    array of their two descriptors in the wasm32 layout. *)
Definition two_strings : Mem :=
  store_bytes
    (store_bytes
       (store_bytes zeroed 64
          [xc8; x00; x00; x00; x02; x00; x00; x00;
           x2c; x01; x00; x00; x01; x00; x00; x00]%byte)
       200 (list_byte_of_string "ab"))
    300 (list_byte_of_string "c").

Definition two_strings_list : key_value_list_string_t :=
  {| strs_ptr := 64; strs_len := 2 |}.

End Sample.

(** * Properties *)

(** ** Memory *)

Lemma store_bytes_below (bs : list byte) :
  forall (m : Mem) (p a : Z), a < p -> store_bytes m p bs a = m a.
Proof.
  induction bs as [|b bs IH]; intros m p a Hlt; simpl.
  - reflexivity.
  - rewrite IH by lia. unfold store_byte.
    destruct (Z.eqb_spec a p); [lia | reflexivity].
Qed.

Lemma load_bytes_ext (n : nat) :
  forall (m m' : Mem) (p : Z),
    (forall a, p <= a < p + Z.of_nat n -> m a = m' a) ->
    load_bytes m p n = load_bytes m' p n.
Proof.
  induction n as [|n IH]; intros m m' p Hext; simpl.
  - reflexivity.
  - rewrite (Hext p) by lia. f_equal. apply IH. intros a Ha. apply Hext. lia.
Qed.

Lemma load_store_bytes (bs : list byte) :
  forall (m : Mem) (p : Z), load_bytes (store_bytes m p bs) p (List.length bs) = bs.
Proof.
  induction bs as [|b bs IH]; intros m p; simpl.
  - reflexivity.
  - rewrite store_bytes_below by lia. unfold store_byte at 1.
    rewrite Z.eqb_refl. f_equal. apply IH.
Qed.

Lemma load_store_bytes_app (bs tl : list byte) :
  forall (m : Mem) (p : Z),
    load_bytes (store_bytes m p (bs ++ tl)) p (List.length bs) = bs.
Proof.
  induction bs as [|b bs IH]; intros m p; simpl.
  - reflexivity.
  - rewrite store_bytes_below by lia. unfold store_byte at 1.
    rewrite Z.eqb_refl. f_equal. apply IH.
Qed.

Lemma load_bytes_store_above (n : nat) (bs : list byte) (m : Mem) (p q : Z) :
  p + Z.of_nat n <= q ->
  load_bytes (store_bytes m q bs) p n = load_bytes m p n.
Proof.
  intros Hle. apply load_bytes_ext. intros a Ha.
  apply store_bytes_below. lia.
Qed.

Lemma length_list_byte_of_string (s : string) :
  List.length (list_byte_of_string s) = String.length s.
Proof.
  unfold list_byte_of_string. rewrite length_map.
  induction s as [|c s IH]; simpl; [reflexivity | now rewrite IH].
Qed.

(** ** Conversions *)

Lemma C_int_small (x : Z) : 0 <= x <= MaxInt32 -> C.int x = x.
Proof.
  unfold C.int, MaxInt32. intros Hx.
  rewrite Z.mod_small by lia. lia.
Qed.

Lemma GoBytes_bytes_at (m : Mem) (d : C.key_value_list_u8_t) (v : list byte) :
  bytes_at m d v ->
  Z.of_nat (List.length v) <= MaxInt32 ->
  GoBytes m (C.list_ptr d) (C.int (C.list_len d)) = Ret v.
Proof.
  intros [Hlen Hload] Hfit. unfold GoBytes.
  rewrite Hlen, C_int_small by lia.
  destruct (Z.ltb_spec (Z.of_nat (List.length v)) 0); [lia |].
  now rewrite Nat2Z.id, Hload.
Qed.

Lemma GoStringN_string_at (m : Mem) (d : C.key_value_string_t) (s : string) :
  string_at m d s ->
  Z.of_nat (String.length s) <= MaxInt32 ->
  GoStringN m (C.str_ptr d) (C.int (C.str_len d)) = Ret s.
Proof.
  intros [Hlen Hload] Hfit. unfold GoStringN, GoBytes.
  rewrite Hlen, C_int_small by lia.
  destruct (Z.ltb_spec (Z.of_nat (String.length s)) 0); [lia |].
  simpl. now rewrite Nat2Z.id, Hload, string_of_list_byte_of_string.
Qed.

(** ** The error decoder *)

Example fmt_v_99 : fmt_v 99 = "99".
Proof. reflexivity. Qed.

Lemma toErr_not_IO (m m' : Mem) (t : Z) (v v' : C.key_value_string_t) :
  t <> ErrorIO ->
  toErr m {| C.tag := t; C.val := v |} = toErr m' {| C.tag := t; C.val := v' |}.
Proof.
  intros Ht. unfold toErr; simpl.
  destruct (Z.eqb_spec t ErrorIO); [contradiction | reflexivity].
Qed.

(** C4. Decoding an error union with a known tag gives the canonical
    error of that tag.  Tags 0 to 4 give their static message whatever
    the payload and whatever memory holds, so no payload is read.  Tag 5
    with a payload that describes the string [msg] (a Go string, so of
    at most [MaxInt32] bytes) gives the message "io error: " followed by
    [msg], byte for byte. *)
Theorem toErr_known_tag :
  (forall m v, toErr m {| C.tag := 0; C.val := v |}
               = Ret {| Code := ErrorStoreTableFull; Message := "store table full" |}) /\
  (forall m v, toErr m {| C.tag := 1; C.val := v |}
               = Ret {| Code := ErrorNoSuchStore; Message := "no such store" |}) /\
  (forall m v, toErr m {| C.tag := 2; C.val := v |}
               = Ret {| Code := ErrorAccessDenied; Message := "access denied" |}) /\
  (forall m v, toErr m {| C.tag := 3; C.val := v |}
               = Ret {| Code := ErrorInvalidStore; Message := "invalid store" |}) /\
  (forall m v, toErr m {| C.tag := 4; C.val := v |}
               = Ret {| Code := ErrorNoSuchKey; Message := "no such key" |}) /\
  (forall m v msg,
      string_at m v msg ->
      Z.of_nat (String.length msg) <= MaxInt32 ->
      toErr m {| C.tag := 5; C.val := v |}
      = Ret {| Code := ErrorIO; Message := ("io error: " ++ msg)%string |}).
Proof.
  do 5 (split; [intros m v; reflexivity |]).
  intros m v msg Hat Hfit. unfold toErr; simpl.
  now rewrite (GoStringN_string_at m v msg Hat Hfit).
Qed.

Lemma toErr_known_tag_witness :
  let m := store_bytes zeroed 16 (list_byte_of_string "disk full") in
  let v := {| C.str_ptr := 16; C.str_len := 9 |} in
  string_at m v "disk full" /\
  Z.of_nat (String.length "disk full") <= MaxInt32 /\
  toErr m {| C.tag := 5; C.val := v |}
  = Ret {| Code := ErrorIO; Message := "io error: disk full" |}.
Proof.
  intros m v.
  assert (Hat : string_at m v "disk full") by (split; reflexivity).
  assert (Hfit : Z.of_nat (String.length "disk full") <= MaxInt32)
    by (vm_compute; discriminate).
  split; [exact Hat | split; [exact Hfit |]].
  exact (proj2 (proj2 (proj2 (proj2 (proj2 toErr_known_tag)))) m v _ Hat Hfit).
Defined.

(** C5, as the specification words its last part, fails: the decoder
    is not total over all tag values.  On the IO tag with a payload
    length of 2^31, which is negative once converted to [C.int],
    [C.GoStringN] faults and no [Error] is produced. *)
Lemma toErr_IO_length_faults :
  ~ decodes zeroed {| C.tag := 5;
                      C.val := {| C.str_ptr := 0; C.str_len := 2 ^ 31 |} |}.
Proof.
  intros [err Hdec]. vm_compute in Hdec. discriminate Hdec.
Qed.

(** C5, as the code has it.  A tag outside 0..5 still decodes to an
    [Error]: its code is the raw tag and its message says that the tag
    is unrecognized; nothing is read and nothing faults.  The decoder is
    total over every tag other than the IO tag: for such a tag it
    returns an [Error] that carries the tag, with a message fixed by
    the tag alone, whatever memory and the payload hold. *)
Theorem toErr_unrecognized_tag :
  (forall m e,
      C.tag e < 0 \/ 5 < C.tag e ->
      toErr m e
      = Ret {| Code := C.tag e;
               Message := ("unrecognized error: " ++ fmt_v (C.tag e))%string |}) /\
  (forall t,
      t <> ErrorIO ->
      exists msg, forall m v,
        toErr m {| C.tag := t; C.val := v |} = Ret {| Code := t; Message := msg |}).
Proof.
  split.
  - intros m e Hout. unfold toErr, ErrorStoreTableFull, ErrorNoSuchStore,
      ErrorAccessDenied, ErrorInvalidStore, ErrorNoSuchKey, ErrorIO.
    repeat match goal with
           | |- context [?a =? ?b] => destruct (Z.eqb_spec a b); [lia |]
           end.
    reflexivity.
  - intros t Hio. unfold toErr. cbn [C.tag C.val].
    destruct (Z.eqb_spec t ErrorStoreTableFull) as [-> | _];
      [eexists; intros; reflexivity |].
    destruct (Z.eqb_spec t ErrorNoSuchStore) as [-> | _];
      [eexists; intros; reflexivity |].
    destruct (Z.eqb_spec t ErrorAccessDenied) as [-> | _];
      [eexists; intros; reflexivity |].
    destruct (Z.eqb_spec t ErrorInvalidStore) as [-> | _];
      [eexists; intros; reflexivity |].
    destruct (Z.eqb_spec t ErrorNoSuchKey) as [-> | _];
      [eexists; intros; reflexivity |].
    destruct (Z.eqb_spec t ErrorIO) as [-> | _]; [contradiction |].
    eexists; intros; reflexivity.
Qed.

Lemma toErr_unrecognized_tag_witness :
  let e := {| C.tag := 99; C.val := {| C.str_ptr := 0; C.str_len := 0 |} |} in
  (C.tag e < 0 \/ 5 < C.tag e) /\
  toErr zeroed e = Ret {| Code := 99; Message := "unrecognized error: 99" |} /\
  ErrorNoSuchKey <> ErrorIO /\
  exists msg, forall m v,
    toErr m {| C.tag := ErrorNoSuchKey; C.val := v |}
    = Ret {| Code := ErrorNoSuchKey; Message := msg |}.
Proof.
  intros e.
  assert (Hout : C.tag e < 0 \/ 5 < C.tag e) by (right; reflexivity).
  assert (Hio : ErrorNoSuchKey <> ErrorIO) by discriminate.
  split; [exact Hout |].
  split; [exact (proj1 toErr_unrecognized_tag zeroed e Hout) |].
  split; [exact Hio |].
  exact (proj2 toErr_unrecognized_tag ErrorNoSuchKey Hio).
Defined.

(** ** The wire codec *)

Section Codec.

Context {H : Type}.
Implicit Types (st : State H) (x key : string) (value : list byte).

(** The descriptor [toCStr] builds and the state it leaves. *)
Lemma toCStr_run st x :
  toCStr x st
  = (Ret {| C.str_ptr := brk (world st); C.str_len := Z.of_nat (String.length x) |},
     snd (CString x st)).
Proof. reflexivity. Qed.

Lemma toCStr_string_at st x :
  forall d st', toCStr x st = (Ret d, st') -> string_at (mem (world st')) d x.
Proof.
  intros d st' Hrun. rewrite toCStr_run in Hrun.
  injection Hrun as <- <-. split; simpl.
  - reflexivity.
  - rewrite <- (length_list_byte_of_string x). apply load_store_bytes_app.
Qed.

Lemma toCBytes_run st b value :
  toCBytes (b :: value) st
  = (Ret {| C.list_ptr := brk (world st);
            C.list_len := Z.of_nat (List.length (b :: value)) |},
     snd (addr_of_first (b :: value) st)).
Proof. reflexivity. Qed.

Lemma toCBytes_bytes_at st value :
  forall d st', toCBytes value st = (Ret d, st') -> bytes_at (mem (world st')) d value.
Proof.
  intros d st' Hrun. destruct value as [|b value]; [discriminate |].
  rewrite toCBytes_run in Hrun. injection Hrun as <- <-.
  split; [reflexivity |].
  exact (load_store_bytes (b :: value) (mem (world st)) (brk (world st))).
Qed.

(** C2. Encoding the empty byte sequence is where the encoder fails:
    [toCBytes] indexes the first element without a length check, so
    the empty slice is a run-time panic and no descriptor is built. *)
Theorem toCBytes_empty_panics st :
  toCBytes [] st
  = (Panic "runtime error: index out of range [0] with length 0", st).
Proof. reflexivity. Qed.

(** The sibling encoder has no such case: the empty string encodes. *)
Lemma toCStr_empty st :
  fst (toCStr "" st) = Ret {| C.str_ptr := brk (world st); C.str_len := 0 |}.
Proof. reflexivity. Qed.

End Codec.

(** ** The Store *)

Section Frame.

Context {H : Type}.

Lemma keeps_self_ret A (a : A) : keeps_self (@ret H A a).
Proof. intros st; reflexivity. Qed.

Lemma keeps_self_panic A msg : keeps_self (@panic H A msg).
Proof. intros st; reflexivity. Qed.

Lemma keeps_self_get_self : keeps_self (@get_self H).
Proof. intros st; reflexivity. Qed.

Lemma keeps_self_lift A (o : Mem -> Outcome A) : keeps_self (@lift H A o).
Proof. intros st; reflexivity. Qed.

Lemma keeps_self_alloc bs : keeps_self (@alloc H bs).
Proof. intros st; reflexivity. Qed.

Lemma keeps_self_host_call A c (f : World H -> A * World H) :
  keeps_self (host_call c f).
Proof. intros st. unfold host_call. now destruct (f (world st)). Qed.

Lemma keeps_self_bind A B (c : Go H A) (k : A -> Go H B) :
  keeps_self c -> (forall a, keeps_self (k a)) -> keeps_self (bind c k).
Proof.
  intros Hc Hk st. unfold bind. specialize (Hc st).
  destruct (c st) as [[a | msg] st1]; simpl in *.
  - now rewrite Hk.
  - exact Hc.
Qed.

Lemma keeps_self_toCStr x : keeps_self (@toCStr H x).
Proof. intros st; reflexivity. Qed.

Lemma keeps_self_toCBytes x : keeps_self (@toCBytes H x).
Proof. intros st; destruct x; reflexivity. Qed.

End Frame.

Create HintDb frame.
#[export] Hint Resolve keeps_self_ret keeps_self_panic keeps_self_get_self
  keeps_self_lift keeps_self_alloc keeps_self_host_call keeps_self_toCStr
  keeps_self_toCBytes : frame.

(** Decomposes a computation along its binds and the branches on the
    host's answer. *)
Ltac frame :=
  repeat first
    [ solve [auto with frame]
    | apply keeps_self_bind; [| intros ?]
    | match goal with
      | |- keeps_self (match ?r with _ => _ end) => destruct r
      end ].

Section StoreProperties.

Context {H : Type}.
Variable abi : Imports H.
Implicit Types (st : State H) (key : string) (value : list byte).

Lemma keeps_self_Get key : keeps_self (Get abi key).
Proof. unfold Get. frame. Qed.

Lemma keeps_self_Delete key : keeps_self (Delete abi key).
Proof. unfold Delete. frame. Qed.

Lemma keeps_self_Set key value : keeps_self (Set_ abi key value).
Proof. unfold Set_. frame. Qed.

Lemma keeps_self_Exists key : keeps_self (Exists abi key).
Proof. unfold Exists. frame. Qed.

(** C10. Get, Set, Delete and Exists leave the Store as it was: its
    name, active flag and handle are the same after the call as
    before, whatever the host answers and also when the call panics. *)
Theorem data_operations_keep_store st key value :
  self (snd (Get abi key st)) = self st /\
  self (snd (Set_ abi key value st)) = self st /\
  self (snd (Delete abi key st)) = self st /\
  self (snd (Exists abi key st)) = self st.
Proof.
  repeat split.
  - apply keeps_self_Get.
  - apply keeps_self_Set.
  - apply keeps_self_Delete.
  - apply keeps_self_Exists.
Qed.

(** *** Which host calls an operation issues *)

Lemma calls_Get st key :
  calls (snd (Get abi key st))
  = calls st ++ [CallGet (ptr (self st))
                         {| C.str_ptr := brk (world st);
                            C.str_len := Z.of_nat (String.length key) |}].
Proof.
  unfold Get, bind, host_call, lift, ret, get_self. rewrite toCStr_run. simpl.
  destruct (key_value_get abi _ _ _) as [[d | e] w']; simpl.
  - now destruct (GoBytes _ _ _).
  - now destruct (toErr _ _).
Qed.

Lemma calls_Delete st key :
  calls (snd (Delete abi key st))
  = calls st ++ [CallDelete (ptr (self st))
                            {| C.str_ptr := brk (world st);
                               C.str_len := Z.of_nat (String.length key) |}].
Proof.
  unfold Delete, bind, host_call, lift, ret, get_self. rewrite toCStr_run. simpl.
  destruct (key_value_delete abi _ _ _) as [[d | e] w']; simpl.
  - reflexivity.
  - now destruct (toErr _ _).
Qed.

Lemma calls_Exists st key :
  calls (snd (Exists abi key st))
  = calls st ++ [CallExists (ptr (self st))
                            {| C.str_ptr := brk (world st);
                               C.str_len := Z.of_nat (String.length key) |}].
Proof.
  unfold Exists, bind, host_call, lift, ret, get_self. rewrite toCStr_run. simpl.
  destruct (key_value_exists abi _ _ _) as [[d | e] w']; simpl.
  - reflexivity.
  - now destruct (toErr _ _).
Qed.

Lemma calls_Set st key value :
  value <> [] ->
  calls (snd (Set_ abi key value st))
  = calls st ++ [CallSet (ptr (self st))
                         {| C.str_ptr := brk (world st);
                            C.str_len := Z.of_nat (String.length key) |}
                         {| C.list_ptr := brk (world st)
                                          + Z.of_nat (String.length key) + 1;
                            C.list_len := Z.of_nat (List.length value) |}].
Proof.
  intros Hne. destruct value as [|b value]; [contradiction |].
  unfold Set_, bind, host_call, lift, ret, get_self.
  rewrite toCStr_run, toCBytes_run. simpl.
  rewrite length_app, length_list_byte_of_string. simpl.
  replace (Z.of_nat (String.length key + 1))
    with (Z.of_nat (String.length key) + 1) by lia.
  rewrite Z.add_assoc.
  destruct (key_value_set abi _ _ _ _) as [[d | e] w']; simpl.
  - reflexivity.
  - now destruct (toErr _ _).
Qed.

(** C1, as the code has it.  A data operation performs no open
    transition, on an active Store or on an inactive one: it issues
    one host call, its own, with the handle the Store holds, and the
    Store (so its active flag) is as before.  Set is stated for a
    non-empty value. *)
Theorem data_operations_do_not_open st key value :
  let h := ptr (self st) in
  let ckey := {| C.str_ptr := brk (world st);
                 C.str_len := Z.of_nat (String.length key) |} in
  let cbytes := {| C.list_ptr := brk (world st) + Z.of_nat (String.length key) + 1;
                   C.list_len := Z.of_nat (List.length value) |} in
  (calls (snd (Get abi key st)) = calls st ++ [CallGet h ckey] /\
   self (snd (Get abi key st)) = self st) /\
  (calls (snd (Delete abi key st)) = calls st ++ [CallDelete h ckey] /\
   self (snd (Delete abi key st)) = self st) /\
  (calls (snd (Exists abi key st)) = calls st ++ [CallExists h ckey] /\
   self (snd (Exists abi key st)) = self st) /\
  (value <> [] ->
   calls (snd (Set_ abi key value st)) = calls st ++ [CallSet h ckey cbytes] /\
   self (snd (Set_ abi key value st)) = self st).
Proof.
  intros h ckey cbytes. repeat split.
  - apply calls_Get.
  - apply keeps_self_Get.
  - apply calls_Delete.
  - apply keeps_self_Delete.
  - apply calls_Exists.
  - apply keeps_self_Exists.
  - now apply calls_Set.
  - apply keeps_self_Set.
Qed.

(** *** Open *)

Lemma open_active st :
  active (self st) = true -> open abi st = (Ret None, st).
Proof.
  intros Hact. unfold open, bind, get_self. now rewrite Hact.
Qed.

Lemma open_inactive st :
  active (self st) = false ->
  let cname := {| C.str_ptr := brk (world st);
                  C.str_len := Z.of_nat (String.length (name (self st))) |} in
  open abi st
  = match key_value_open abi cname (world (snd (toCStr (name (self st)) st))) with
    | (C.err e, w') =>
        (outcome_map Some (toErr (mem w') e),
         {| self := self st; world := w'; calls := calls st ++ [CallOpen cname] |})
    | (C.ok h, w') =>
        (Ret None,
         {| self := {| name := name (self st); active := true; ptr := h |};
            world := w'; calls := calls st ++ [CallOpen cname] |})
    end.
Proof.
  intros Hact cname. unfold open, bind at 1, get_self. rewrite Hact.
  unfold bind at 1. rewrite toCStr_run.
  unfold bind, host_call, lift, ret, set_ptr, set_active. simpl.
  destruct (key_value_open abi _ _) as [[h | e] w']; simpl.
  - reflexivity.
  - now destruct (toErr _ _).
Qed.

Lemma open_success_active st st' :
  open abi st = (Ret None, st') -> active (self st') = true.
Proof.
  intros Hrun. destruct (active (self st)) eqn:Hact.
  - rewrite open_active in Hrun by assumption. now injection Hrun as <-.
  - rewrite open_inactive in Hrun by assumption.
    destruct (key_value_open abi _ _) as [[h | e] w'].
    + now injection Hrun as <-.
    + destruct (toErr _ _); discriminate.
Qed.

(** C6. Once Open has succeeded, an immediate second Open succeeds
    and changes nothing: the state it returns is the state it was
    given, so no host call is added to the log and the handle and the
    active flag are the ones the first Open left. *)
Theorem Open_twice st st' :
  Open abi st = (Ret None, st') ->
  Open abi st' = (Ret None, st').
Proof.
  intros Hfirst. apply open_active. exact (open_success_active st st' Hfirst).
Qed.

(** C7. Open on a Store that is not active issues the host open call
    on the encoded name.  If the host answers with an error, the Store
    is left exactly as it was (not active, handle not overwritten) and
    the caller gets the decoded error; if the host answers with a
    handle, the Store records it and becomes active, and the caller
    gets nil. *)
Theorem Open_on_closed_store st :
  active (self st) = false ->
  let cname := {| C.str_ptr := brk (world st);
                  C.str_len := Z.of_nat (String.length (name (self st))) |} in
  let st1 := snd (toCStr (name (self st)) st) in
  (forall e w',
      key_value_open abi cname (world st1) = (C.err e, w') ->
      Open abi st
      = (outcome_map Some (toErr (mem w') e),
         {| self := self st; world := w'; calls := calls st ++ [CallOpen cname] |})) /\
  (forall h w',
      key_value_open abi cname (world st1) = (C.ok h, w') ->
      Open abi st
      = (Ret None,
         {| self := {| name := name (self st); active := true; ptr := h |};
            world := w'; calls := calls st ++ [CallOpen cname] |})).
Proof.
  intros Hact cname st1. unfold Open.
  split; intros x w' Hhost; rewrite (open_inactive st Hact);
    fold cname st1; now rewrite Hhost.
Qed.

(** *** Close *)

(** C8. Close always returns, and returns nothing: there is no error
    to surface.  It issues the host close call exactly when the Store
    is active, with the Store's handle, and leaves the Store inactive
    with its name and handle untouched.  A second Close finds the
    Store inactive and changes nothing: no host call, same state. *)
Theorem Close_best_effort st :
  let st' := snd (Close abi st) in
  fst (Close abi st) = Ret tt /\
  active (self st') = false /\
  name (self st') = name (self st) /\
  ptr (self st') = ptr (self st) /\
  calls st' = calls st ++ (if active (self st)
                           then [CallClose (ptr (self st))] else []) /\
  Close abi st' = (Ret tt, st').
Proof.
  unfold Close, bind, get_self, host_call, set_active, ret; simpl.
  destruct (active (self st)); simpl; repeat split.
  now rewrite app_nil_r.
Qed.

(** *** Exists *)

(** C9. When Exists returns an error, the boolean next to it is
    false. *)
Theorem Exists_error_false st key b e st' :
  Exists abi key st = (Ret (b, Some e), st') -> b = false.
Proof.
  unfold Exists, bind, host_call, lift, ret, get_self. rewrite toCStr_run. simpl.
  destruct (key_value_exists abi _ _ _) as [[b' | e'] w']; simpl.
  - discriminate.
  - destruct (toErr _ _); [| discriminate].
    intros Hrun. now injection Hrun as <- _ _.
Qed.

(** *** Set on the empty value *)

(** C3. The round trip does not hold for the empty byte sequence:
    whatever the host and whatever the state of the Store, Set of the
    empty value panics in [toCBytes] before the host is called, so the
    value is never stored and the Get that follows is never reached. *)
Theorem Set_empty_then_Get_panics st key :
  fst ((Set_ abi key [];; Get abi key) st)
  = Panic "runtime error: index out of range [0] with length 0" /\
  calls (snd ((Set_ abi key [];; Get abi key) st)) = calls st.
Proof.
  assert (Hset : Set_ abi key [] st
                 = (Panic "runtime error: index out of range [0] with length 0",
                    snd (toCStr key st))) by reflexivity.
  unfold bind. rewrite Hset. split; reflexivity.
Qed.

End StoreProperties.

(** ** Set followed by Get *)

Section RoundTrip.

Context {H : Type}.
Variable abi : Imports H.
Variable view : H -> Z -> option (string -> option (list byte)).
Hypothesis correct : CorrectHost abi view.

(** Over a correct host and on an open handle, a non-empty value
    written under a non-empty key is read back as it was written. *)
Lemma Set_Get_roundtrip (st : State H) (key : string) (value : list byte) f :
  view (host (world st)) (ptr (self st)) = Some f ->
  key <> "" ->
  value <> [] ->
  Z.of_nat (List.length value) <= MaxInt32 ->
  exists st1 st2,
    Set_ abi key value st = (Ret None, st1) /\
    Get abi key st1 = (Ret (value, None), st2).
Proof.
  intros Hview Hkey Hval Hfit.
  (* Set: the two encodings *)
  destruct (toCStr key st) as [ok sta] eqn:Ekey.
  pose proof Ekey as Ekey'. rewrite toCStr_run in Ekey'.
  injection Ekey' as Eok Esta. subst ok.
  pose proof (toCStr_string_at st key _ _ Ekey) as Hk.
  destruct (toCBytes value sta) as [ov stb] eqn:Eval.
  assert (exists cb, ov = Ret cb) as [cb ->].
  { destruct value; [contradiction |]. rewrite toCBytes_run in Eval.
    injection Eval as <- _. eexists; reflexivity. }
  pose proof (toCBytes_bytes_at sta value _ _ Eval) as Hv.
  assert (Hk' : string_at (mem (world stb))
                  {| C.str_ptr := brk (world st);
                     C.str_len := Z.of_nat (String.length key) |} key).
  { destruct value as [|b value]; [contradiction |].
    rewrite toCBytes_run in Eval. injection Eval as _ <-.
    destruct Hk as [Hlen Hload]. split; [exact Hlen |].
    simpl in *. rewrite <- Hload, <- Esta. simpl.
    apply (load_bytes_store_above _ (b :: value)).
    rewrite length_app, length_list_byte_of_string. simpl. lia. }
  assert (Hframe : host (world stb) = host (world st) /\ self stb = self st).
  { destruct value as [|b value]; [contradiction |].
    rewrite toCBytes_run in Eval. injection Eval as _ <-.
    rewrite <- Esta. split; reflexivity. }
  destruct Hframe as [Hhost Hself].
  rewrite <- Hhost, <- Hself in Hview.
  destruct (set_stores abi view correct _ _ _ _ _ _ _ Hview Hkey Hk' Hv)
    as (w1 & f1 & Eset & Hview1 & Hf1).
  exists {| self := self stb; world := w1;
            calls := calls stb ++ [CallSet (ptr (self stb))
                        {| C.str_ptr := brk (world st);
                           C.str_len := Z.of_nat (String.length key) |} cb] |}.
  (* Get: the key again, and the host's answer *)
  match goal with |- exists st2, _ /\ Get abi key ?s = _ => set (st1 := s) end.
  destruct (toCStr key st1) as [ok stc] eqn:Ekey1.
  pose proof Ekey1 as Ekey1'. rewrite toCStr_run in Ekey1'.
  injection Ekey1' as Eok Estc. subst ok.
  pose proof (toCStr_string_at st1 key _ _ Ekey1) as Hk1.
  assert (Hview2 : view (host (world stc)) (ptr (self stb)) = Some f1).
  { rewrite <- Estc. exact Hview1. }
  destruct (get_returns abi view correct _ _ _ _ _ _ Hview2 Hkey Hf1 Hk1)
    as (d & w2 & Eget & Hd).
  exists {| self := self stb; world := w2;
            calls := calls st1 ++ [CallGet (ptr (self stb))
                        {| C.str_ptr := brk (world st1);
                           C.str_len := Z.of_nat (String.length key) |}] |}.
  split.
  - unfold Set_, bind. rewrite Ekey, Eval.
    unfold host_call, get_self, ret, C.uint32_t. now rewrite Eset.
  - unfold Get, bind. rewrite Ekey1.
    unfold host_call, get_self, lift, ret, C.uint32_t.
    replace (self stc) with (self stb) by (rewrite <- Estc; reflexivity).
    rewrite Eget. simpl.
    rewrite (GoBytes_bytes_at _ _ _ Hd Hfit).
    replace (calls stc) with (calls st1) by (rewrite <- Estc; reflexivity).
    reflexivity.
Qed.

End RoundTrip.

(** ** The SDK on the reference host *)

Module OnRefHost.

Import RefHost.

Lemma read_string_at m d s : string_at m d s -> read_string m d = s.
Proof.
  intros [Hlen Hload]. unfold read_string.
  now rewrite Hlen, Nat2Z.id, Hload, string_of_list_byte_of_string.
Qed.

Lemma read_bytes_at m d v : bytes_at m d v -> read_bytes m d = v.
Proof.
  intros [Hlen Hload]. unfold read_bytes. now rewrite Hlen, Nat2Z.id.
Qed.

Lemma eqb_nonempty k : k <> "" -> String.eqb k "" = false.
Proof. intros Hk. now apply String.eqb_neq. Qed.

(** The reference host keeps the contract of a correct host. *)
Lemma RefHost_correct : CorrectHost imports view.
Proof.
  split.
  - intros w h dk dv k v f Hview Hk Hdk Hdv.
    unfold view in Hview. destruct (is_opened h (host w)) eqn:Hop; [| discriminate].
    simpl. unfold host_set, guarded.
    rewrite (read_string_at _ _ _ Hdk), (read_bytes_at _ _ _ Hdv), Hop,
      (eqb_nonempty k Hk). simpl.
    eexists _, _. split; [reflexivity |]. unfold view, is_opened in *. simpl.
    rewrite Hop. split; [reflexivity |]. simpl. now rewrite String.eqb_refl.
  - intros w h dk k v f Hview Hk Hf Hdk.
    unfold view in Hview. destruct (is_opened h (host w)) eqn:Hop; [| discriminate].
    injection Hview as <-. simpl. unfold host_get, guarded.
    rewrite (read_string_at _ _ _ Hdk), Hop, (eqb_nonempty k Hk), Hf. simpl.
    eexists _, _. split; [reflexivity |].
    split; [reflexivity |]. apply load_store_bytes.
Qed.

(** C1, as the specification's overview words it, fails: Get on a
    Store that was never opened goes to the host with the zero handle
    and no open call is made. *)
Lemma Get_before_Open_does_not_open :
  ~ opens_lazily (Get imports "missing") (boot (NewStore "cache")).
Proof.
  unfold opens_lazily. intros Hopens.
  destruct (Hopens eq_refl) as (cname & rest & Hcalls).
  vm_compute in Hcalls. discriminate Hcalls.
Qed.

Example Get_before_Open :
  fst (Get imports "missing" (boot (NewStore "cache")))
  = Ret ([], Some {| Code := ErrorInvalidStore; Message := "invalid store" |}).
Proof. reflexivity. Qed.

Lemma data_operations_do_not_open_witness :
  [x61%byte] <> [] /\
  calls (snd (Set_ imports "k" [x61%byte] (boot (NewStore "cache"))))
  = [CallSet 0 {| C.str_ptr := 1024; C.str_len := 1 |}
               {| C.list_ptr := 1026; C.list_len := 1 |}].
Proof.
  assert (Hne : [x61%byte] <> []) by discriminate.
  split; [exact Hne |].
  exact (proj1 (proj2 (proj2 (proj2
           (data_operations_do_not_open imports (boot (NewStore "cache"))
                                        "k" [x61%byte]))) Hne)).
Defined.

Lemma Open_twice_witness :
  let st0 := boot (NewStore "default") in
  let st1 := snd (Open imports st0) in
  Open imports st0 = (Ret None, st1) /\
  Open imports st1 = (Ret None, st1).
Proof.
  intros st0 st1.
  assert (Hfirst : Open imports st0 = (Ret None, st1)) by reflexivity.
  split; [exact Hfirst |].
  exact (Open_twice imports st0 st1 Hfirst).
Defined.

Lemma Open_on_closed_store_witness :
  let st0 := boot (NewStore "cache") in
  let cname := {| C.str_ptr := 1024; C.str_len := 5 |} in
  active (self st0) = false /\
  Open imports st0
  = (Ret (Some {| Code := ErrorNoSuchStore; Message := "no such store" |}),
     {| self := NewStore "cache";
        world := world (snd (toCStr "cache" st0));
        calls := [CallOpen cname] |}).
Proof.
  intros st0 cname. split; [reflexivity |].
  exact (proj1 (Open_on_closed_store imports st0 eq_refl)
               {| C.tag := ErrorNoSuchStore;
                  C.val := {| C.str_ptr := 0; C.str_len := 0 |} |}
               (world (snd (toCStr "cache" st0))) eq_refl).
Defined.

Lemma Exists_error_false_witness :
  let st0 := boot (NewStore "cache") in
  let e := {| Code := ErrorInvalidStore; Message := "invalid store" |} in
  Exists imports "k" st0
  = (Ret (false, Some e), snd (Exists imports "k" st0)) /\
  false = false.
Proof.
  intros st0 e.
  assert (Hrun : Exists imports "k" st0
                 = (Ret (false, Some e), snd (Exists imports "k" st0)))
    by reflexivity.
  split; [exact Hrun |].
  exact (Exists_error_false imports st0 "k" false e _ Hrun).
Defined.

(** On an open Store of the reference host a one-byte value written
    with Set is read back by Get; the empty value is not. *)
Example Set_Get_on_open_store :
  let st1 := snd (Open imports (boot (NewStore "default"))) in
  fst ((Set_ imports "k" [x61%byte];; Get imports "k") st1)
  = Ret ([x61%byte], None) /\
  fst ((Set_ imports "k" [];; Get imports "k") st1)
  = Panic "runtime error: index out of range [0] with length 0".
Proof. split; reflexivity. Qed.

End OnRefHost.

(** * Further properties of the package *)

(** ** Encoding and decoding back *)

Lemma store_bytes_at (bs : list byte) :
  forall (m : Mem) (p : Z) (i : nat) (b : byte),
    nth_error bs i = Some b -> store_bytes m p bs (p + Z.of_nat i) = b.
Proof.
  induction bs as [|b0 bs IH]; intros m p i b Hnth.
  - destruct i; discriminate.
  - destruct i as [|i]; simpl in *.
    + injection Hnth as <-. rewrite Z.add_0_r, store_bytes_below by lia.
      unfold store_byte. now rewrite Z.eqb_refl.
    + replace (p + Z.pos (Pos.of_succ_nat i)) with (p + 1 + Z.of_nat i) by lia.
      now apply IH.
Qed.

Section CodecRoundTrip.

Context {H : Type}.
Implicit Types (st : State H).

(** X1. A string encoded by [toCStr] decodes back to itself: the
    descriptor carries the byte length of [x], [C.GoStringN] on it
    returns [x] (also when [x] is empty or contains NUL bytes), and the
    byte after the copy is the terminating NUL. *)
Theorem toCStr_GoStringN_roundtrip st (x : string) :
  Z.of_nat (String.length x) <= MaxInt32 ->
  exists d st',
    toCStr x st = (Ret d, st') /\
    C.str_len d = Z.of_nat (String.length x) /\
    GoStringN (mem (world st')) (C.str_ptr d) (C.int (C.str_len d)) = Ret x /\
    mem (world st') (C.str_ptr d + C.str_len d) = x00.
Proof.
  intros Hfit. eexists _, _. split; [apply toCStr_run |].
  split; [reflexivity |]. split.
  - apply GoStringN_string_at; [| exact Hfit].
    apply (toCStr_string_at st x). apply toCStr_run.
  - simpl. rewrite <- (length_list_byte_of_string x).
    apply store_bytes_at. rewrite nth_error_app2 by lia.
    now rewrite Nat.sub_diag.
Qed.

(** X2. A non-empty byte slice encoded by [toCBytes] decodes back to
    itself: the descriptor carries its length and [C.GoBytes] on it
    returns the same bytes. *)
Theorem toCBytes_GoBytes_roundtrip st (x : list byte) :
  x <> [] ->
  Z.of_nat (List.length x) <= MaxInt32 ->
  exists d st',
    toCBytes x st = (Ret d, st') /\
    C.list_len d = Z.of_nat (List.length x) /\
    GoBytes (mem (world st')) (C.list_ptr d) (C.int (C.list_len d)) = Ret x.
Proof.
  intros Hne Hfit. destruct x as [|b x]; [contradiction |].
  eexists _, _. split; [apply toCBytes_run |]. split; [reflexivity |].
  apply GoBytes_bytes_at; [| exact Hfit].
  apply (toCBytes_bytes_at st (b :: x)). apply toCBytes_run.
Qed.

End CodecRoundTrip.

(** ** Decoding a list of strings *)

Section StringList.

Variable L : Layout.
Variable m : Mem.

Lemma fromCStrList_loop_decodes (base : Z) :
  forall (ss : list string) (i : nat) (acc : list string),
    (forall j s,
        nth_error ss j = Some s ->
        string_at m (load_string L m (base + Z.of_nat (i + j) * sizeof_string L)) s /\
        Z.of_nat (String.length s) <= MaxInt32) ->
    fromCStrList_loop L m base (Z.of_nat i) (List.length ss) acc = Ret (acc ++ ss).
Proof.
  induction ss as [|s ss IH]; intros i acc Hat; simpl.
  - now rewrite app_nil_r.
  - destruct (Hat 0%nat s eq_refl) as [Hs Hfit].
    rewrite Nat.add_0_r in Hs.
    rewrite (GoStringN_string_at _ _ _ Hs Hfit).
    replace (Z.of_nat i + 1) with (Z.of_nat (S i)) by lia.
    rewrite IH.
    + now rewrite <- app_assoc.
    + intros j s' Hj. specialize (Hat (S j) s' Hj).
      now replace (S i + j)%nat with (i + S j)%nat by lia.
Qed.

Lemma fromCStrList_loop_returns (base : Z) :
  forall (n : nat) (i : nat) (acc l : list string),
    fromCStrList_loop L m base (Z.of_nat i) n acc = Ret l ->
    List.length l = (List.length acc + n)%nat /\
    (forall j, (j < List.length acc)%nat -> nth_error l j = nth_error acc j) /\
    (forall j s,
        nth_error l (List.length acc + j) = Some s ->
        let str := load_string L m (base + Z.of_nat (i + j) * sizeof_string L) in
        GoStringN m (C.str_ptr str) (C.int (C.str_len str)) = Ret s).
Proof.
  induction n as [|n IH]; intros i acc l Hrun; simpl in Hrun.
  - injection Hrun as <-. split; [lia |]. split; [reflexivity |].
    intros j s Hj.
    assert (Hlt : (List.length acc + j < List.length acc)%nat)
      by (apply nth_error_Some; congruence).
    lia.
  - destruct (GoStringN m _ _) as [s0 | msg] eqn:Hs; [| discriminate].
    replace (Z.of_nat i + 1) with (Z.of_nat (S i)) in Hrun by lia.
    destruct (IH (S i) (acc ++ [s0]) l Hrun) as (Hlen & Hpre & Hnew).
    rewrite length_app in *. simpl in *.
    split; [| split].
    + lia.
    + intros j Hj. rewrite Hpre by lia. now rewrite nth_error_app1.
    + intros [|j] s Hj.
      * rewrite Nat.add_0_r in *. rewrite Hpre in Hj by lia.
        rewrite nth_error_app2, Nat.sub_diag in Hj by lia.
        injection Hj as <-. exact Hs.
      * replace (i + S j)%nat with (S i + j)%nat by lia.
        apply Hnew.
        now replace (List.length acc + 1 + j)%nat
          with (List.length acc + S j)%nat by lia.
Qed.

Lemma Go_int_small (x : Z) : 0 <= x <= MaxInt32 -> Go_int x = x.
Proof.
  unfold Go_int, MaxInt32. intros Hx. rewrite Z.mod_small by lia. lia.
Qed.

(** X3. [fromCStrList] returns the strings of the array in the order
    of the array: when the array holds descriptors of [ss], one after
    the other, the result is [ss] itself.  An empty array gives the nil
    slice, also for a nil pointer. *)
Theorem fromCStrList_decodes_in_order (lst : key_value_list_string_t)
        (ss : list string) :
  strings_at L m lst ss ->
  strs_ptr lst <> 0 \/ ss = [] ->
  Z.of_nat (List.length ss) <= MaxInt32 ->
  (forall s, In s ss -> Z.of_nat (String.length s) <= MaxInt32) ->
  fromCStrList L m lst = Ret ss.
Proof.
  intros [Hlen Hat] Hptr Hfit Hfits. unfold fromCStrList.
  rewrite Hlen, Go_int_small by lia. unfold unsafe_Slice.
  destruct (Z.ltb_spec (Z.of_nat (List.length ss)) 0) as [Hneg | _]; [lia |].
  assert (Hnil : (strs_ptr lst =? 0) && negb (Z.of_nat (List.length ss) =? 0) = false).
  { destruct Hptr as [Hp | ->].
    - destruct (Z.eqb_spec (strs_ptr lst) 0); [contradiction | reflexivity].
    - simpl. apply andb_false_r. }
  rewrite Hnil, Nat2Z.id.
  apply (fromCStrList_loop_decodes (strs_ptr lst) ss 0 []).
  intros j s Hj. split.
  - now apply Hat.
  - apply Hfits. eapply nth_error_In; eassumption.
Qed.

(** X4. Whenever [fromCStrList] returns, it returns as many strings as
    the array has elements, and the string at index [j] is the one
    [C.GoStringN] makes of the [j]-th descriptor: nothing is dropped,
    repeated or reordered. *)
Theorem fromCStrList_elements (lst : key_value_list_string_t) (l : list string) :
  fromCStrList L m lst = Ret l ->
  Z.of_nat (List.length l) = Go_int (strs_len lst) /\
  forall j s,
    nth_error l j = Some s ->
    let str := load_string L m (strs_ptr lst + Z.of_nat j * sizeof_string L) in
    GoStringN m (C.str_ptr str) (C.int (C.str_len str)) = Ret s.
Proof.
  unfold fromCStrList, unsafe_Slice. intros Hrun.
  destruct (Z.ltb_spec (Go_int (strs_len lst)) 0) as [Hneg | Hpos]; [discriminate |].
  destruct ((strs_ptr lst =? 0) && negb (Go_int (strs_len lst) =? 0));
    [discriminate |].
  destruct (fromCStrList_loop_returns (strs_ptr lst) _ 0 [] l Hrun)
    as (Hlen & _ & Hnew).
  simpl in Hlen. split; [lia |].
  intros j s Hj. exact (Hnew j s Hj).
Qed.

End StringList.

(** ** What an operation does with the host's answer *)

Section Results.

Context {H : Type}.
Variable abi : Imports H.
Implicit Types (st : State H) (key : string) (value : list byte).

Lemma Get_run st key :
  let ckey := {| C.str_ptr := brk (world st);
                 C.str_len := Z.of_nat (String.length key) |} in
  Get abi key st
  = (let (r, w') := key_value_get abi (ptr (self st)) ckey
                                  (world (snd (toCStr key st))) in
     (match r with
      | C.ok d => outcome_map (fun b => (b, None))
                    (GoBytes (mem w') (C.list_ptr d) (C.int (C.list_len d)))
      | C.err e => outcome_map (fun e' => ([], Some e')) (toErr (mem w') e)
      end,
      {| self := self st; world := w';
         calls := calls st ++ [CallGet (ptr (self st)) ckey] |})).
Proof.
  intros ckey. unfold Get, bind, host_call, lift, ret, get_self.
  rewrite toCStr_run. simpl.
  destruct (key_value_get abi _ _ _) as [[d | e] w']; simpl.
  - now destruct (GoBytes _ _ _).
  - now destruct (toErr _ _).
Qed.

Lemma Delete_run st key :
  let ckey := {| C.str_ptr := brk (world st);
                 C.str_len := Z.of_nat (String.length key) |} in
  Delete abi key st
  = (let (r, w') := key_value_delete abi (ptr (self st)) ckey
                                     (world (snd (toCStr key st))) in
     (match r with
      | C.ok _ => Ret None
      | C.err e => outcome_map Some (toErr (mem w') e)
      end,
      {| self := self st; world := w';
         calls := calls st ++ [CallDelete (ptr (self st)) ckey] |})).
Proof.
  intros ckey. unfold Delete, bind, host_call, lift, ret, get_self.
  rewrite toCStr_run. simpl.
  destruct (key_value_delete abi _ _ _) as [[d | e] w']; simpl.
  - reflexivity.
  - now destruct (toErr _ _).
Qed.

Lemma Exists_run st key :
  let ckey := {| C.str_ptr := brk (world st);
                 C.str_len := Z.of_nat (String.length key) |} in
  Exists abi key st
  = (let (r, w') := key_value_exists abi (ptr (self st)) ckey
                                     (world (snd (toCStr key st))) in
     (match r with
      | C.ok b => Ret (b, None)
      | C.err e => outcome_map (fun e' => (false, Some e')) (toErr (mem w') e)
      end,
      {| self := self st; world := w';
         calls := calls st ++ [CallExists (ptr (self st)) ckey] |})).
Proof.
  intros ckey. unfold Exists, bind, host_call, lift, ret, get_self.
  rewrite toCStr_run. simpl.
  destruct (key_value_exists abi _ _ _) as [[d | e] w']; simpl.
  - reflexivity.
  - now destruct (toErr _ _).
Qed.

Lemma Set_run st key b value :
  let ckey := {| C.str_ptr := brk (world st);
                 C.str_len := Z.of_nat (String.length key) |} in
  let cbytes := {| C.list_ptr := brk (world st) + Z.of_nat (String.length key) + 1;
                   C.list_len := Z.of_nat (List.length (b :: value)) |} in
  Set_ abi key (b :: value) st
  = (let (r, w') := key_value_set abi (ptr (self st)) ckey cbytes
                      (world (snd (toCBytes (b :: value) (snd (toCStr key st))))) in
     (match r with
      | C.ok _ => Ret None
      | C.err e => outcome_map Some (toErr (mem w') e)
      end,
      {| self := self st; world := w';
         calls := calls st ++ [CallSet (ptr (self st)) ckey cbytes] |})).
Proof.
  intros ckey cbytes. unfold Set_, bind, host_call, lift, ret, get_self.
  rewrite toCStr_run, toCBytes_run. simpl.
  rewrite length_app, length_list_byte_of_string. simpl.
  replace (Z.of_nat (String.length key + 1))
    with (Z.of_nat (String.length key) + 1) by lia.
  rewrite Z.add_assoc. fold cbytes.
  destruct (key_value_set abi _ _ _ _) as [[d | e] w']; simpl.
  - reflexivity.
  - now destruct (toErr _ _).
Qed.

(** X5. A host failure is surfaced through the one decoder: when the
    host call of Get, Delete, Exists or Set answers with an error, the
    operation returns what [toErr] makes of that error in the memory the
    host left, next to the zero value of its result (nil bytes for Get,
    false for Exists). *)
Theorem host_error_is_surfaced st key :
  let ckey := {| C.str_ptr := brk (world st);
                 C.str_len := Z.of_nat (String.length key) |} in
  let h := ptr (self st) in
  let w1 := world (snd (toCStr key st)) in
  (forall e w',
      key_value_get abi h ckey w1 = (C.err e, w') ->
      fst (Get abi key st)
      = outcome_map (fun e' => ([], Some e')) (toErr (mem w') e)) /\
  (forall e w',
      key_value_delete abi h ckey w1 = (C.err e, w') ->
      fst (Delete abi key st) = outcome_map Some (toErr (mem w') e)) /\
  (forall e w',
      key_value_exists abi h ckey w1 = (C.err e, w') ->
      fst (Exists abi key st)
      = outcome_map (fun e' => (false, Some e')) (toErr (mem w') e)) /\
  (forall b value e w',
      let cbytes := {| C.list_ptr := brk (world st) + Z.of_nat (String.length key) + 1;
                       C.list_len := Z.of_nat (List.length (b :: value)) |} in
      key_value_set abi h ckey cbytes
                    (world (snd (toCBytes (b :: value) (snd (toCStr key st)))))
      = (C.err e, w') ->
      fst (Set_ abi key (b :: value) st) = outcome_map Some (toErr (mem w') e)).
Proof.
  intros ckey h w1. repeat split.
  - intros e w' Hhost. rewrite Get_run. fold ckey h w1. now rewrite Hhost.
  - intros e w' Hhost. rewrite Delete_run. fold ckey h w1. now rewrite Hhost.
  - intros e w' Hhost. rewrite Exists_run. fold ckey h w1. now rewrite Hhost.
  - intros b value e w' cbytes Hhost. rewrite Set_run.
    fold ckey h cbytes. now rewrite Hhost.
Qed.

(** X6. Get returns an error only when the host call failed: the host
    answered with an error, the error returned is what [toErr] makes of
    it in the memory the host left, and the slice returned next to it
    has no bytes. *)
Theorem Get_error_comes_from_host st key v e st' :
  Get abi key st = (Ret (v, Some e), st') ->
  List.length v = 0%nat /\
  exists e0 w',
    key_value_get abi (ptr (self st))
                  {| C.str_ptr := brk (world st);
                     C.str_len := Z.of_nat (String.length key) |}
                  (world (snd (toCStr key st)))
    = (C.err e0, w') /\
    toErr (mem w') e0 = Ret e.
Proof.
  rewrite Get_run. cbv zeta.
  destruct (key_value_get abi _ _ _) as [[d | e0] w'].
  - destruct (GoBytes _ _ _); discriminate.
  - destruct (toErr (mem w') e0) as [e1 | msg] eqn:Hdec; [| discriminate].
    intros Hrun. injection Hrun as <- <- _.
    split; [reflexivity |]. now exists e0, w'.
Qed.

(** X7. A host success is decoded into the result: Get returns the
    bytes the returned descriptor describes (a copy of at most
    [MaxInt32] bytes) and a nil error, Exists returns the host's boolean
    and a nil error, Delete and Set return nil. *)
Theorem host_success_is_decoded st key :
  let ckey := {| C.str_ptr := brk (world st);
                 C.str_len := Z.of_nat (String.length key) |} in
  let h := ptr (self st) in
  let w1 := world (snd (toCStr key st)) in
  (forall d w' v,
      key_value_get abi h ckey w1 = (C.ok d, w') ->
      bytes_at (mem w') d v ->
      Z.of_nat (List.length v) <= MaxInt32 ->
      fst (Get abi key st) = Ret (v, None)) /\
  (forall u w',
      key_value_delete abi h ckey w1 = (C.ok u, w') ->
      fst (Delete abi key st) = Ret None) /\
  (forall b w',
      key_value_exists abi h ckey w1 = (C.ok b, w') ->
      fst (Exists abi key st) = Ret (b, None)) /\
  (forall b value u w',
      let cbytes := {| C.list_ptr := brk (world st) + Z.of_nat (String.length key) + 1;
                       C.list_len := Z.of_nat (List.length (b :: value)) |} in
      key_value_set abi h ckey cbytes
                    (world (snd (toCBytes (b :: value) (snd (toCStr key st)))))
      = (C.ok u, w') ->
      fst (Set_ abi key (b :: value) st) = Ret None).
Proof.
  intros ckey h w1. repeat split.
  - intros d w' v Hhost Hd Hfit. rewrite Get_run. fold ckey h w1.
    rewrite Hhost. simpl. now rewrite (GoBytes_bytes_at _ _ _ Hd Hfit).
  - intros u w' Hhost. rewrite Delete_run. fold ckey h w1. now rewrite Hhost.
  - intros b w' Hhost. rewrite Exists_run. fold ckey h w1. now rewrite Hhost.
  - intros b value u w' cbytes Hhost. rewrite Set_run.
    fold ckey h cbytes. now rewrite Hhost.
Qed.

Lemma Set_arguments st key b value :
  let ckey := {| C.str_ptr := brk (world st);
                 C.str_len := Z.of_nat (String.length key) |} in
  let cbytes := {| C.list_ptr := brk (world st) + Z.of_nat (String.length key) + 1;
                   C.list_len := Z.of_nat (List.length (b :: value)) |} in
  let w2 := world (snd (toCBytes (b :: value) (snd (toCStr key st)))) in
  string_at (mem w2) ckey key /\ bytes_at (mem w2) cbytes (b :: value).
Proof.
  intros ckey cbytes w2.
  assert (Hmem : mem w2
                 = store_bytes
                     (store_bytes (mem (world st)) (brk (world st))
                                  (list_byte_of_string key ++ [x00]))
                     (brk (world st) + Z.of_nat (String.length key) + 1)
                     (b :: value)).
  { subst w2. rewrite toCBytes_run. cbn [snd addr_of_first alloc world mem].
    rewrite toCStr_run. cbn [snd CString alloc world mem brk].
    rewrite length_app, length_list_byte_of_string. cbn [List.length].
    now replace (brk (world st) + Z.of_nat (String.length key + 1))
      with (brk (world st) + Z.of_nat (String.length key) + 1) by lia. }
  split.
  - split; [reflexivity |]. rewrite Hmem. cbn [ckey C.str_ptr].
    rewrite load_bytes_store_above by lia.
    rewrite <- (length_list_byte_of_string key). apply load_store_bytes_app.
  - split; [reflexivity |]. rewrite Hmem. cbn [cbytes C.list_ptr].
    exact (load_store_bytes (b :: value) _ _).
Qed.

(** X8. When Set calls the host, both descriptors it passes are valid
    in the memory the host sees: the key descriptor describes the key
    and the value descriptor describes the value, at the same time. *)
Theorem Set_passes_key_and_value st key value :
  value <> [] ->
  let ckey := {| C.str_ptr := brk (world st);
                 C.str_len := Z.of_nat (String.length key) |} in
  let cbytes := {| C.list_ptr := brk (world st) + Z.of_nat (String.length key) + 1;
                   C.list_len := Z.of_nat (List.length value) |} in
  let w2 := world (snd (toCBytes value (snd (toCStr key st)))) in
  string_at (mem w2) ckey key /\
  bytes_at (mem w2) cbytes value /\
  exists r w',
    key_value_set abi (ptr (self st)) ckey cbytes w2 = (r, w') /\
    snd (Set_ abi key value st)
    = {| self := self st; world := w';
         calls := calls st ++ [CallSet (ptr (self st)) ckey cbytes] |}.
Proof.
  intros Hne. destruct value as [|b value]; [contradiction |].
  intros ckey cbytes w2.
  destruct (Set_arguments st key b value) as [Hk Hv].
  split; [exact Hk |]. split; [exact Hv |].
  rewrite Set_run. fold ckey cbytes w2.
  destruct (key_value_set abi _ _ _ _) as [r w'].
  now exists r, w'.
Qed.

End Results.

(** ** The life cycle of a Store *)

Section Lifecycle.

Context {H : Type}.
Variable abi : Imports H.
Implicit Types (st : State H) (key : string) (value : list byte).

Lemma Close_run st :
  Close abi st
  = (Ret tt,
     {| self := {| name := name (self st); active := false; ptr := ptr (self st) |};
        world := if active (self st)
                 then key_value_close abi (ptr (self st)) (world st)
                 else world st;
        calls := calls st ++ (if active (self st)
                              then [CallClose (ptr (self st))] else []) |}).
Proof.
  unfold Close, bind, get_self, host_call, set_active, ret; simpl.
  destruct (active (self st)); simpl; [reflexivity |].
  now rewrite app_nil_r.
Qed.

Lemma calls_open_inactive st :
  active (self st) = false ->
  calls (snd (open abi st))
  = calls st ++ [CallOpen {| C.str_ptr := brk (world st);
                             C.str_len := Z.of_nat (String.length (name (self st))) |}].
Proof.
  intros Hact. rewrite (open_inactive abi st Hact).
  now destruct (key_value_open abi _ _) as [[h | e] w'].
Qed.

(** X9. After Open has obtained a handle from the host, the data
    operations pass that handle: the log of an Open on an inactive
    Store followed by Get, Delete or Exists is the open call and then
    the operation's call on the handle the host returned. *)
Theorem Open_then_data_operation st key h w' :
  active (self st) = false ->
  let cname := {| C.str_ptr := brk (world st);
                  C.str_len := Z.of_nat (String.length (name (self st))) |} in
  key_value_open abi cname (world (snd (toCStr (name (self st)) st))) = (C.ok h, w') ->
  let st1 := snd (Open abi st) in
  let ckey := {| C.str_ptr := brk w'; C.str_len := Z.of_nat (String.length key) |} in
  fst (Open abi st) = Ret None /\
  calls (snd (Get abi key st1)) = calls st ++ [CallOpen cname; CallGet h ckey] /\
  calls (snd (Delete abi key st1)) = calls st ++ [CallOpen cname; CallDelete h ckey] /\
  calls (snd (Exists abi key st1)) = calls st ++ [CallOpen cname; CallExists h ckey].
Proof.
  intros Hact cname Hhost st1 ckey. subst st1. unfold Open.
  rewrite (open_inactive abi st Hact). fold cname. rewrite Hhost.
  rewrite calls_Get, calls_Delete, calls_Exists. simpl.
  rewrite <- !app_assoc. repeat split.
Qed.

(** X10. Close does not forget the handle: a data operation called
    after Close finds the Store inactive and still goes to the host,
    with the handle that was closed. *)
Theorem data_operation_after_Close st key :
  let st1 := snd (Close abi st) in
  let ckey := {| C.str_ptr := brk (world st1);
                 C.str_len := Z.of_nat (String.length key) |} in
  active (self st1) = false /\
  calls (snd (Get abi key st1)) = calls st1 ++ [CallGet (ptr (self st)) ckey] /\
  calls (snd (Delete abi key st1)) = calls st1 ++ [CallDelete (ptr (self st)) ckey] /\
  calls (snd (Exists abi key st1)) = calls st1 ++ [CallExists (ptr (self st)) ckey].
Proof.
  intros st1 ckey. subst st1 ckey.
  rewrite calls_Get, calls_Delete, calls_Exists, Close_run. repeat split.
Qed.

(** X11. Open after Close connects again: the host open call is issued
    anew, and the handle the host returns replaces the old one. *)
Theorem Close_then_Open_reopens st :
  let st1 := snd (Close abi st) in
  let cname := {| C.str_ptr := brk (world st1);
                  C.str_len := Z.of_nat (String.length (name (self st))) |} in
  calls (snd (Open abi st1)) = calls st1 ++ [CallOpen cname] /\
  forall h w',
    key_value_open abi cname (world (snd (toCStr (name (self st)) st1))) = (C.ok h, w') ->
    fst (Open abi st1) = Ret None /\
    self (snd (Open abi st1))
    = {| name := name (self st); active := true; ptr := h |}.
Proof.
  intros st1 cname.
  assert (Hact : active (self st1) = false) by (subst st1; now rewrite Close_run).
  assert (Hname : name (self st1) = name (self st))
    by (subst st1; now rewrite Close_run).
  split.
  - unfold Open. rewrite (calls_open_inactive st1 Hact). now rewrite Hname.
  - intros h w' Hhost. unfold Open. rewrite (open_inactive abi st1 Hact).
    rewrite Hname. fold cname. now rewrite Hhost.
Qed.

(** X12. A failed Open is not remembered: the Store is as it was before
    the call, still inactive, and the next Open asks the host again. *)
Theorem failed_Open_can_be_retried st e st1 :
  Open abi st = (Ret (Some e), st1) ->
  self st1 = self st /\
  active (self st1) = false /\
  calls (snd (Open abi st1))
  = calls st1 ++ [CallOpen {| C.str_ptr := brk (world st1);
                              C.str_len := Z.of_nat (String.length (name (self st))) |}].
Proof.
  unfold Open. intros Hrun.
  destruct (active (self st)) eqn:Hact.
  - rewrite (open_active abi st Hact) in Hrun. discriminate.
  - rewrite (open_inactive abi st Hact) in Hrun.
    destruct (key_value_open abi _ _) as [[h | e0] w']; [discriminate |].
    destruct (toErr _ _) as [e1 | msg]; [| discriminate].
    injection Hrun as _ <-. simpl.
    split; [reflexivity |]. split; [exact Hact |].
    now rewrite calls_open_inactive.
Qed.

(** X13. A Store made by NewStore has not talked to the host: it is
    inactive and its handle is zero.  A data operation called before any
    Open goes to the host with handle zero, and the first Open sends a
    descriptor of the name given to NewStore. *)
Theorem NewStore_first_calls (nm key : string) (w : World H) :
  let st := {| self := NewStore nm; world := w; calls := [] |} in
  let ckey := {| C.str_ptr := brk w; C.str_len := Z.of_nat (String.length key) |} in
  let cname := {| C.str_ptr := brk w; C.str_len := Z.of_nat (String.length nm) |} in
  calls (snd (Get abi key st)) = [CallGet 0 ckey] /\
  calls (snd (Delete abi key st)) = [CallDelete 0 ckey] /\
  calls (snd (Exists abi key st)) = [CallExists 0 ckey] /\
  calls (snd (Open abi st)) = [CallOpen cname] /\
  string_at (mem (world (snd (toCStr nm st)))) cname nm.
Proof.
  intros st ckey cname.
  rewrite calls_Get, calls_Delete, calls_Exists.
  unfold Open. rewrite (calls_open_inactive st eq_refl).
  repeat split.
  rewrite <- (length_list_byte_of_string nm). apply load_store_bytes_app.
Qed.

(** *** Any sequence of calls *)

Lemma snd_bind_ret_tt A (c : Go H A) st :
  snd ((_ <- c;; ret tt) st) = snd (c st).
Proof. unfold bind, ret. now destruct (c st) as [[a | msg] st1]. Qed.

Lemma calls_Set_any st key value :
  exists l,
    calls (snd (Set_ abi key value st)) = calls st ++ l /\ (List.length l <= 1)%nat.
Proof.
  destruct value as [|b value].
  - exists []. split; [now rewrite app_nil_r | simpl; lia].
  - eexists. split; [apply calls_Set; discriminate | simpl; lia].
Qed.

Lemma step_effect (o : Op) st :
  name (self (snd (step abi o st))) = name (self st) /\
  exists l,
    calls (snd (step abi o st)) = calls st ++ l /\ (List.length l <= 1)%nat.
Proof.
  destruct o as [| | key | key value | key | key]; simpl;
    rewrite ?snd_bind_ret_tt.
  - unfold Open. destruct (active (self st)) eqn:Hact.
    + rewrite (open_active abi st Hact). split; [reflexivity |].
      exists []. split; [now rewrite app_nil_r | simpl; lia].
    + rewrite (calls_open_inactive st Hact). split.
      * rewrite (open_inactive abi st Hact).
        now destruct (key_value_open abi _ _) as [[h | e] w'].
      * eexists. split; [reflexivity | simpl; lia].
  - rewrite Close_run. split; [reflexivity |].
    eexists. split; [reflexivity |]. destruct (active (self st)); simpl; lia.
  - rewrite keeps_self_Get, calls_Get. split; [reflexivity |].
    eexists. split; [reflexivity | simpl; lia].
  - rewrite keeps_self_Set. split; [reflexivity |]. apply calls_Set_any.
  - rewrite keeps_self_Delete, calls_Delete. split; [reflexivity |].
    eexists. split; [reflexivity | simpl; lia].
  - rewrite keeps_self_Exists, calls_Exists. split; [reflexivity |].
    eexists. split; [reflexivity | simpl; lia].
Qed.

(** X14. Over any sequence of calls on a Store, its name never changes,
    the log of host calls only grows, and it grows by at most one host
    call per operation. *)
Theorem run_name_and_calls (ops : list Op) :
  forall st,
    name (self (snd (run abi ops st))) = name (self st) /\
    exists l,
      calls (snd (run abi ops st)) = calls st ++ l /\
      (List.length l <= List.length ops)%nat.
Proof.
  induction ops as [|o ops IH]; intros st; simpl.
  - split; [reflexivity |]. exists []. split; [now rewrite app_nil_r | reflexivity].
  - destruct (step_effect o st) as (Hname & l1 & Hcalls & Hlen).
    unfold bind. destruct (step abi o st) as [[u | msg] st1]; simpl in *.
    + destruct (IH st1) as (Hname' & l2 & Hcalls' & Hlen').
      split; [congruence |].
      exists (l1 ++ l2). rewrite Hcalls', Hcalls, length_app.
      split; [now rewrite app_assoc | lia].
    + split; [exact Hname |]. exists l1. split; [exact Hcalls | lia].
Qed.

Lemma step_not_Open (o : Op) st :
  is_OpOpen o = false ->
  ptr (self (snd (step abi o st))) = ptr (self st) /\
  (active (self (snd (step abi o st))) = true -> active (self st) = true).
Proof.
  destruct o as [| | key | key value | key | key]; simpl; intros Ho;
    try discriminate; rewrite ?snd_bind_ret_tt.
  - rewrite Close_run. simpl. split; [reflexivity | discriminate].
  - now rewrite keeps_self_Get.
  - now rewrite keeps_self_Set.
  - now rewrite keeps_self_Delete.
  - now rewrite keeps_self_Exists.
Qed.

(** X15. Only Open connects: over any sequence of calls that contains
    no Open, the handle of the Store is unchanged and the Store is
    active at the end only if it was active at the start. *)
Theorem only_Open_activates (ops : list Op) :
  forall st,
    forallb (fun o => negb (is_OpOpen o)) ops = true ->
    ptr (self (snd (run abi ops st))) = ptr (self st) /\
    (active (self (snd (run abi ops st))) = true -> active (self st) = true).
Proof.
  induction ops as [|o ops IH]; intros st Hops; simpl in *.
  - split; [reflexivity | trivial].
  - apply andb_prop in Hops as [Ho Hops]. apply negb_true_iff in Ho.
    destruct (step_not_Open o st Ho) as [Hptr Hact].
    unfold bind. destruct (step abi o st) as [[u | msg] st1]; simpl in *.
    + destruct (IH st1 Hops) as [Hptr' Hact'].
      split; [congruence | auto].
    + split; assumption.
Qed.

End Lifecycle.

(** ** Delete followed by Exists and Get *)

Section DeleteThenLookups.

Context {H : Type}.
Variable abi : Imports H.
Variable view : H -> Z -> option (string -> option (list byte)).
Hypothesis correct : CorrectHostDelete abi view.

(** X16. Over a correct host and on an open handle, after Delete of a
    non-empty key has returned nil, Exists of that key returns false
    with a nil error, and Get of that key returns nil bytes with the
    NoSuchKey error. *)
Theorem Delete_then_Exists_Get (st : State H) (key : string) f :
  view (host (world st)) (ptr (self st)) = Some f ->
  key <> "" ->
  exists st1 st2 st3,
    Delete abi key st = (Ret None, st1) /\
    Exists abi key st1 = (Ret (false, None), st2) /\
    Get abi key st2
    = (Ret ([], Some {| Code := ErrorNoSuchKey; Message := "no such key" |}), st3).
Proof.
  intros Hview Hkey.
  (* Delete *)
  pose proof (toCStr_string_at st key _ _ (toCStr_run st key)) as Hk.
  destruct (delete_removes abi view correct
              (world (snd (toCStr key st))) (ptr (self st)) _ key f
              Hview Hkey Hk) as (w1 & f1 & Edel & Hview1 & Hf1).
  set (st1 := {| self := self st; world := w1;
                 calls := calls st ++ [CallDelete (ptr (self st))
                            {| C.str_ptr := brk (world st);
                               C.str_len := Z.of_nat (String.length key) |}] |}).
  (* Exists *)
  pose proof (toCStr_string_at st1 key _ _ (toCStr_run st1 key)) as Hk1.
  destruct (exists_reflects abi view correct
              (world (snd (toCStr key st1))) (ptr (self st1)) _ key f1
              Hview1 Hkey Hk1) as (w2 & Eex & Hhost2).
  rewrite Hf1 in Eex.
  set (st2 := {| self := self st1; world := w2;
                 calls := calls st1 ++ [CallExists (ptr (self st1))
                            {| C.str_ptr := brk (world st1);
                               C.str_len := Z.of_nat (String.length key) |}] |}).
  (* Get *)
  pose proof (toCStr_string_at st2 key _ _ (toCStr_run st2 key)) as Hk2.
  assert (Hview2 : view (host (world (snd (toCStr key st2)))) (ptr (self st2))
                   = Some f1).
  { simpl. rewrite Hhost2. exact Hview1. }
  destruct (get_missing abi view correct
              (world (snd (toCStr key st2))) (ptr (self st2)) _ key f1
              Hview2 Hkey Hf1 Hk2) as (v & w3 & Eget).
  exists st1, st2. eexists. split; [| split].
  - rewrite Delete_run. cbv zeta. now rewrite Edel.
  - rewrite Exists_run. cbv zeta. now rewrite Eex.
  - rewrite Get_run. cbv zeta. rewrite Eget. reflexivity.
Qed.

End DeleteThenLookups.

(** ** Set followed by Get, over a correct host *)

Section Overwrite.

Context {H : Type}.
Variable abi : Imports H.
Variable view : H -> Z -> option (string -> option (list byte)).
Hypothesis correct : CorrectHost abi view.

Lemma Set_on_correct_host (st : State H) (key : string) (value : list byte) f :
  view (host (world st)) (ptr (self st)) = Some f ->
  key <> "" ->
  value <> [] ->
  exists st1 f1,
    Set_ abi key value st = (Ret None, st1) /\
    self st1 = self st /\
    view (host (world st1)) (ptr (self st1)) = Some f1 /\
    f1 key = Some value.
Proof.
  intros Hview Hkey Hne. destruct value as [|b value]; [contradiction |].
  destruct (Set_arguments st key b value) as [Hk Hv].
  destruct (set_stores abi view correct
              (world (snd (toCBytes (b :: value) (snd (toCStr key st)))))
              (ptr (self st)) _ _ key (b :: value) f
              Hview Hkey Hk Hv) as (w1 & f1 & Eset & Hview1 & Hf1).
  eexists _, f1. rewrite Set_run. cbv zeta. rewrite Eset.
  split; [reflexivity |]. split; [reflexivity |]. split; assumption.
Qed.

Lemma Get_on_correct_host (st : State H) (key : string) (v : list byte) f :
  view (host (world st)) (ptr (self st)) = Some f ->
  key <> "" ->
  f key = Some v ->
  Z.of_nat (List.length v) <= MaxInt32 ->
  exists st1, Get abi key st = (Ret (v, None), st1).
Proof.
  intros Hview Hkey Hf Hfit.
  pose proof (toCStr_string_at st key _ _ (toCStr_run st key)) as Hk.
  destruct (get_returns abi view correct
              (world (snd (toCStr key st))) (ptr (self st)) _ key v f
              Hview Hkey Hf Hk) as (d & w1 & Eget & Hd).
  eexists. rewrite Get_run. cbv zeta. rewrite Eget.
  now rewrite (GoBytes_bytes_at _ _ _ Hd Hfit).
Qed.

(** X17. Over a correct host and on an open handle, a non-empty value
    (of at most [MaxInt32] bytes) written by Set under a non-empty key
    is what the Get of that key returns, with a nil error. *)
Theorem Set_then_Get_returns_value (st : State H) (key : string)
        (value : list byte) f :
  view (host (world st)) (ptr (self st)) = Some f ->
  key <> "" ->
  value <> [] ->
  Z.of_nat (List.length value) <= MaxInt32 ->
  exists st1 st2,
    Set_ abi key value st = (Ret None, st1) /\
    Get abi key st1 = (Ret (value, None), st2).
Proof.
  intros Hview Hkey Hne Hfit.
  destruct (Set_on_correct_host st key value f Hview Hkey Hne)
    as (st1 & f1 & E1 & _ & Hview1 & Hf1).
  destruct (Get_on_correct_host st1 key value f1 Hview1 Hkey Hf1 Hfit)
    as (st2 & E2).
  now exists st1, st2.
Qed.

(** X18. The last write wins: over a correct host and on an open
    handle, after two Sets of non-empty values under the same non-empty
    key, Get returns the second value. *)
Theorem Set_overwrites (st : State H) (key : string) (v1 v2 : list byte) f :
  view (host (world st)) (ptr (self st)) = Some f ->
  key <> "" ->
  v1 <> [] ->
  v2 <> [] ->
  Z.of_nat (List.length v2) <= MaxInt32 ->
  exists st1 st2 st3,
    Set_ abi key v1 st = (Ret None, st1) /\
    Set_ abi key v2 st1 = (Ret None, st2) /\
    Get abi key st2 = (Ret (v2, None), st3).
Proof.
  intros Hview Hkey Hv1 Hv2 Hfit.
  destruct (Set_on_correct_host st key v1 f Hview Hkey Hv1)
    as (st1 & f1 & E1 & _ & Hview1 & _).
  destruct (Set_on_correct_host st1 key v2 f1 Hview1 Hkey Hv2)
    as (st2 & f2 & E2 & _ & Hview2 & Hf2).
  destruct (Get_on_correct_host st2 key v2 f2 Hview2 Hkey Hf2 Hfit)
    as (st3 & E3).
  now exists st1, st2, st3.
Qed.

End Overwrite.

(** ** Runs on the reference host *)

Module Runs.

Import RefHost.

Lemma lookup_remove (k : string) (l : list (string * list byte)) :
  lookup k (remove k l) = None.
Proof.
  induction l as [|[k' v] l IH]; simpl; [reflexivity |].
  destruct (String.eqb k k') eqn:E; [exact IH |].
  simpl. now rewrite E.
Qed.

(** The reference host keeps the contract about deletion. *)
Lemma RefHost_correct_delete : CorrectHostDelete imports view.
Proof.
  split.
  - intros w h dk k f Hview Hk Hdk.
    unfold view in Hview. destruct (is_opened h (host w)) eqn:Hop; [| discriminate].
    simpl. unfold host_delete, guarded.
    rewrite (OnRefHost.read_string_at _ _ _ Hdk), Hop, (OnRefHost.eqb_nonempty k Hk).
    simpl. eexists _, _. split; [reflexivity |].
    unfold view, is_opened in *. simpl. rewrite Hop.
    split; [reflexivity |]. apply lookup_remove.
  - intros w h dk k f Hview Hk Hdk.
    unfold view in Hview. destruct (is_opened h (host w)) eqn:Hop; [| discriminate].
    injection Hview as <-. simpl. unfold host_exists, guarded.
    rewrite (OnRefHost.read_string_at _ _ _ Hdk), Hop, (OnRefHost.eqb_nonempty k Hk).
    simpl. eexists. split; reflexivity.
  - intros w h dk k f Hview Hk Hf Hdk.
    unfold view in Hview. destruct (is_opened h (host w)) eqn:Hop; [| discriminate].
    injection Hview as <-. simpl. unfold host_get, guarded.
    rewrite (OnRefHost.read_string_at _ _ _ Hdk), Hop, (OnRefHost.eqb_nonempty k Hk), Hf.
    simpl. eexists _, _. reflexivity.
Qed.

Import Sample.

Lemma toCStr_GoStringN_roundtrip_witness :
  Z.of_nat (String.length "key") <= MaxInt32 /\
  exists d st',
    toCStr "key" fresh = (Ret d, st') /\
    C.str_len d = 3 /\
    GoStringN (mem (world st')) (C.str_ptr d) (C.int (C.str_len d)) = Ret "key" /\
    mem (world st') (C.str_ptr d + C.str_len d) = x00.
Proof.
  assert (Hfit : Z.of_nat (String.length "key") <= MaxInt32)
    by (vm_compute; discriminate).
  split; [exact Hfit |].
  exact (toCStr_GoStringN_roundtrip fresh "key" Hfit).
Defined.

Lemma toCBytes_GoBytes_roundtrip_witness :
  [x61; x62]%byte <> [] /\
  exists d st',
    toCBytes [x61; x62]%byte fresh = (Ret d, st') /\
    C.list_len d = 2 /\
    GoBytes (mem (world st')) (C.list_ptr d) (C.int (C.list_len d))
    = Ret [x61; x62]%byte.
Proof.
  assert (Hne : [x61; x62]%byte <> []) by discriminate.
  assert (Hfit : Z.of_nat (List.length [x61; x62]%byte) <= MaxInt32)
    by (vm_compute; discriminate).
  split; [exact Hne |].
  exact (toCBytes_GoBytes_roundtrip fresh [x61; x62]%byte Hne Hfit).
Defined.

Lemma two_strings_at :
  strings_at wasm32 two_strings two_strings_list ["ab"; "c"].
Proof.
  split; [reflexivity |].
  intros [|[|i]] s Hi; simpl in Hi.
  - injection Hi as <-. split; reflexivity.
  - injection Hi as <-. split; reflexivity.
  - destruct i; discriminate.
Qed.

Lemma fromCStrList_decodes_in_order_witness :
  strings_at wasm32 two_strings two_strings_list ["ab"; "c"] /\
  fromCStrList wasm32 two_strings two_strings_list = Ret ["ab"; "c"].
Proof.
  split; [exact two_strings_at |].
  apply (fromCStrList_decodes_in_order wasm32 two_strings two_strings_list
                                       ["ab"; "c"] two_strings_at).
  - left. discriminate.
  - vm_compute. discriminate.
  - intros s [<- | [<- | []]]; vm_compute; discriminate.
Defined.

Lemma fromCStrList_elements_witness :
  fromCStrList wasm32 two_strings two_strings_list = Ret ["ab"; "c"] /\
  Z.of_nat (List.length ["ab"; "c"]) = Go_int (strs_len two_strings_list) /\
  forall j s,
    nth_error ["ab"; "c"] j = Some s ->
    let str := load_string wasm32 two_strings
                 (strs_ptr two_strings_list + Z.of_nat j * sizeof_string wasm32) in
    GoStringN two_strings (C.str_ptr str) (C.int (C.str_len str)) = Ret s.
Proof.
  assert (Hrun : fromCStrList wasm32 two_strings two_strings_list = Ret ["ab"; "c"])
    by reflexivity.
  split; [exact Hrun |].
  exact (fromCStrList_elements wasm32 two_strings two_strings_list ["ab"; "c"] Hrun).
Defined.

Lemma Set_then_Get_returns_value_witness :
  view (host (world opened)) (ptr (self opened)) = Some (fun k => lookup k []) /\
  exists st1 st2,
    Set_ imports "k" [x61%byte] opened = (Ret None, st1) /\
    Get imports "k" st1 = (Ret ([x61%byte], None), st2).
Proof.
  assert (Hview : view (host (world opened)) (ptr (self opened))
                  = Some (fun k => lookup k [])) by reflexivity.
  split; [exact Hview |].
  apply (Set_then_Get_returns_value imports view OnRefHost.RefHost_correct
                                    opened "k" [x61%byte] _ Hview).
  - discriminate.
  - discriminate.
  - vm_compute. discriminate.
Defined.

Lemma host_error_is_surfaced_witness :
  fst (Get imports "k" unknown)
  = Ret ([], Some {| Code := ErrorInvalidStore; Message := "invalid store" |}).
Proof.
  exact (proj1 (host_error_is_surfaced imports unknown "k")
               {| C.tag := ErrorInvalidStore;
                  C.val := {| C.str_ptr := 0; C.str_len := 0 |} |}
               (world (snd (toCStr "k" unknown))) eq_refl).
Defined.

Lemma Get_error_comes_from_host_witness :
  let e := {| Code := ErrorInvalidStore; Message := "invalid store" |} in
  Get imports "k" unknown = (Ret ([], Some e), snd (Get imports "k" unknown)) /\
  exists e0 w',
    key_value_get imports (ptr (self unknown))
                  {| C.str_ptr := brk (world unknown);
                     C.str_len := Z.of_nat (String.length "k") |}
                  (world (snd (toCStr "k" unknown)))
    = (C.err e0, w') /\
    toErr (mem w') e0 = Ret e.
Proof.
  intros e.
  assert (Hrun : Get imports "k" unknown
                 = (Ret ([], Some e), snd (Get imports "k" unknown)))
    by reflexivity.
  split; [exact Hrun |].
  exact (proj2 (Get_error_comes_from_host imports unknown "k" [] e _ Hrun)).
Defined.

Lemma host_success_is_decoded_witness :
  fst (Get imports "k" stored) = Ret ([x61%byte], None).
Proof.
  eapply (proj1 (host_success_is_decoded imports stored "k")).
  - reflexivity.
  - split; reflexivity.
  - vm_compute. discriminate.
Defined.

Lemma Set_passes_key_and_value_witness :
  [x61%byte] <> [] /\
  string_at (mem (world (snd (toCBytes [x61%byte] (snd (toCStr "k" opened))))))
            {| C.str_ptr := brk (world opened); C.str_len := 1 |} "k".
Proof.
  assert (Hne : [x61%byte] <> []) by discriminate.
  split; [exact Hne |].
  exact (proj1 (Set_passes_key_and_value imports opened "k" [x61%byte] Hne)).
Defined.

Lemma Open_then_data_operation_witness :
  active (self fresh) = false /\
  calls (snd (Get imports "k" (snd (Open imports fresh))))
  = [CallOpen {| C.str_ptr := 1024; C.str_len := 7 |};
     CallGet 0 {| C.str_ptr := 1032; C.str_len := 1 |}].
Proof.
  split; [reflexivity |].
  exact (proj1 (proj2 (Open_then_data_operation imports fresh "k" 0
                         (snd (host_open {| C.str_ptr := 1024; C.str_len := 7 |}
                                         (world (snd (toCStr "default" fresh)))))
                         eq_refl eq_refl))).
Defined.

Lemma Close_then_Open_reopens_witness :
  self (snd (Open imports (snd (Close imports opened))))
  = {| name := "default"; active := true; ptr := 1 |}.
Proof.
  eapply (proj2 (Close_then_Open_reopens imports opened)).
  reflexivity.
Defined.

Lemma failed_Open_can_be_retried_witness :
  let e := {| Code := ErrorNoSuchStore; Message := "no such store" |} in
  let st1 := snd (Open imports unknown) in
  Open imports unknown = (Ret (Some e), st1) /\
  self st1 = self unknown /\
  active (self st1) = false /\
  calls (snd (Open imports st1))
  = calls st1 ++ [CallOpen {| C.str_ptr := brk (world st1);
                              C.str_len := Z.of_nat (String.length (name (self unknown))) |}].
Proof.
  intros e st1.
  assert (Hrun : Open imports unknown = (Ret (Some e), st1)) by reflexivity.
  split; [exact Hrun |].
  exact (failed_Open_can_be_retried imports unknown e st1 Hrun).
Defined.

Lemma only_Open_activates_witness :
  let ops := [OpGet "k"; OpClose; OpSet "k" [x61%byte]; OpExists "k"] in
  forallb (fun o => negb (is_OpOpen o)) ops = true /\
  ptr (self (snd (run imports ops opened))) = ptr (self opened) /\
  (active (self (snd (run imports ops opened))) = true ->
   active (self opened) = true).
Proof.
  intros ops. split; [reflexivity |].
  exact (only_Open_activates imports ops opened eq_refl).
Defined.

Lemma Delete_then_Exists_Get_witness :
  view (host (world stored)) (ptr (self stored))
  = Some (fun k => lookup k [("k", [x61%byte])]) /\
  exists st1 st2 st3,
    Delete imports "k" stored = (Ret None, st1) /\
    Exists imports "k" st1 = (Ret (false, None), st2) /\
    Get imports "k" st2
    = (Ret ([], Some {| Code := ErrorNoSuchKey; Message := "no such key" |}), st3).
Proof.
  assert (Hview : view (host (world stored)) (ptr (self stored))
                  = Some (fun k => lookup k [("k", [x61%byte])])) by reflexivity.
  split; [exact Hview |].
  apply (Delete_then_Exists_Get imports view RefHost_correct_delete
                                stored "k" _ Hview).
  discriminate.
Defined.

Lemma Set_overwrites_witness :
  view (host (world stored)) (ptr (self stored))
  = Some (fun k => lookup k [("k", [x61%byte])]) /\
  exists st1 st2 st3,
    Set_ imports "k" [x62%byte] stored = (Ret None, st1) /\
    Set_ imports "k" [x63; x64]%byte st1 = (Ret None, st2) /\
    Get imports "k" st2 = (Ret ([x63; x64]%byte, None), st3).
Proof.
  assert (Hview : view (host (world stored)) (ptr (self stored))
                  = Some (fun k => lookup k [("k", [x61%byte])])) by reflexivity.
  split; [exact Hview |].
  apply (Set_overwrites imports view OnRefHost.RefHost_correct
                        stored "k" [x62%byte] [x63; x64]%byte _ Hview).
  - discriminate.
  - discriminate.
  - discriminate.
  - vm_compute. discriminate.
Defined.

End Runs.
